(** * Claim payload types of the jwt package and their validity rules

    A shallow embedding of [types.go]: the payload structs, the
    [StringList] helper and every [Valid] method, followed by the
    properties the specification states about them.

    Conventions of the embedding.
    - A Go [string] is a [string] (a sequence of bytes); [==] on strings is
      [String.eqb].
    - A method with a pointer receiver is a state transformer over the
      value the receiver points to ([method R A]); a method that never
      assigns through its receiver is then _proved_ to leave it unchanged
      instead of being assumed to.
    - The three functions the package calls but does not define in
      [types.go] ([DecodeActivationClaims], [DecodeGeneric] and
      [nkeys.IsValidPublicAccountKey]) are parameters.  Every call to one
      of them is recorded in a ghost trace carried next to the receiver, so
      that "is not decoded" and "is not looked at" can be stated.
    - An [error] is the message it carries; the [nil] error is [None].
    - [StringList] has two views.  [contains], [Add] and [Remove] work on
      the values: the receiver is the list of its elements and the variadic
      argument the list of the values the loop reads.  [contains_slice],
      [Add_slice] and [Remove_slice] work on slices in memory, where the
      argument may share cells with the receiver's array and [append]
      writes in place; the two views are proved to agree when the argument
      has one element or shares no cell with the receiver's array. *)

From stdpp Require Import gmap strings list pretty.

(** ** Errors *)

(** [errors.New(msg)]: an error value holding its message. *)
Record error : Type := errors_New { Error : string }.

(** [fmt.Errorf(format, args...)] with the arguments already rendered into
    the message (no [%w] verb occurs in the package, so the result is a
    plain message error). *)
Definition fmt_Errorf (msg : string) : error := errors_New msg.

(** The verb [%d] applied to a slice index. *)
Definition fmt_d (i : nat) : string := pretty i.

(** The verb [%v] applied to a non-nil error. *)
Definition fmt_v (e : error) : string := Error e.

(** ** Receivers, collaborator calls and methods *)

(** One record per call that leaves the package. *)
Inductive call : Type :=
| CallDecodeActivationClaims (token : string)
| CallDecodeGeneric (token : string)
| CallIsValidPublicAccountKey (key : string).

(** What a method can touch: the value behind its receiver, and the ghost
    trace of collaborator calls made so far (oldest first). *)
Record state (R : Type) : Type := State { self : R; calls : list call }.
Arguments State {R} _ _.
Arguments self {R} _.
Arguments calls {R} _.

Definition method (R A : Type) : Type := state R → A * state R.

#[global] Instance method_ret {R} : MRet (method R) :=
  λ A (x : A) (st : state R), (x, st).

#[global] Instance method_bind {R} : MBind (method R) :=
  λ A B (k : A → method R B) (m : method R A) (st : state R),
    let '(x, st') := m st in k x st'.

(** [*u] read. *)
Definition load {R} : method R R := λ st, (self st, st).

(** [*u = v]. *)
Definition store {R} (v : R) : method R unit :=
  λ st, (tt, State v (calls st)).

(** A call to a collaborator [f], recorded as [c]. *)
Definition extern {R A} (c : call) (f : A) : method R A :=
  λ st, (f, State (self st) (calls st ++ [c])).

(** A method called on a copy [x] of a value (the loop variable of a
    [range]): whatever it does to [x] is lost with the copy. *)
Definition on_copy {R S A} (x : S) (m : method S A) : method R A :=
  λ st, let '(r, st') := m (State x (calls st)) in (r, State (self st) (calls st')).

(** A method promoted from an embedded struct: it runs on the embedded
    field itself, so what it does to the field stays in the outer value. *)
Definition promoted {R S A} (get : R → S) (set : S → R → R) (m : method S A)
  : method R A :=
  λ st, let '(r, st') := m (State (get (self st)) (calls st)) in
        (r, State (set (self st') (self st)) (calls st')).

(** Running a method on a receiver [r] with an empty trace. *)
Definition run {R A} (m : method R A) (r : R) : A * state R := m (State r []).
Definition result {R A} (m : method R A) (r : R) : A := fst (run m r).
Definition after {R A} (m : method R A) (r : R) : R := self (snd (run m r)).
Definition trace {R A} (m : method R A) (r : R) : list call := calls (snd (run m r)).

(** ** The data model *)

(** [type ImportExportType string] *)
Definition ImportExportType : Type := string.

Definition ImportExportTypeStream : string := "stream".
Definition ImportExportTypeService : string := "service".

Record Import : Type := {
  Import_Type : ImportExportType;
  Import_Account : string;
  Import_Subject : string;
  Import_To : string;
  Import_Prefix : string
}.

Record Account : Type := {
  Account_Imports : list Import;
  Account_Act : list string
}.

(** [int64] fields are never computed with; they are carried as [Z]. *)
Record Limits : Type := {
  Limits_Max : Z;
  Limits_Payload : Z;
  Limits_Src : string;
  Limits_Times : list Z
}.

Record OperatorLimits : Type := {
  OperatorLimits_Subs : Z;
  OperatorLimits_Conn : Z;
  OperatorLimits_Maps : Z
}.

(** [type StringList []string] *)
Definition StringList : Type := list string.

Record Permission : Type := {
  Permission_Allow : StringList;
  Permission_Deny : StringList
}.

Record Permissions : Type := {
  Permissions_Pub : Permission;
  Permissions_Sub : Permission
}.

Record Export : Type := {
  Export_Type : ImportExportType;
  Export_Subject : string
}.

(** [Limits] and [OperatorLimits] are embedded. *)
Record Activation : Type := {
  Activation_Exports : list Export;
  Activation_Limits : Limits;
  Activation_OperatorLimits : OperatorLimits
}.

Record Identity : Type := {
  Identity_ID : string;
  Identity_Proof : string
}.

Record Operator : Type := {
  Operator_Identities : list Identity
}.

Record Cluster : Type := {
  Cluster_Trust : list string;
  Cluster_Accounts : list string;
  Cluster_AccountURL : string;
  Cluster_OperatorURL : string
}.

(** [Permissions] is embedded. *)
Record Server : Type := {
  Server_Permissions : Permissions;
  Server_Cluster : string
}.

(** [Permissions] and [Limits] are embedded. *)
Record User : Type := {
  User_Permissions : Permissions;
  User_Limits : Limits
}.

Record Revocation : Type := {
  Revocation_Revoked : string;
  Revocation_JWT : string;
  Revocation_Reason : string
}.

(** Modelled from the spec: the type [ActivationClaims] is declared outside
    [types.go].  [Account.Valid] reads its [Name]; the payload of an
    activation token is an [Activation]. *)
Record ActivationClaims : Type := {
  ActivationClaims_Name : string;
  ActivationClaims_Activation : Activation
}.

(** Modelled from the spec: the type [GenericClaims] is declared outside
    [types.go].  [Revocation.Valid] reads its [ID]. *)
Record GenericClaims : Type := {
  GenericClaims_ID : string
}.

Definition set_Server_Permissions (p : Permissions) (s : Server) : Server :=
  {| Server_Permissions := p; Server_Cluster := Server_Cluster s |}.

Definition set_User_Permissions (p : Permissions) (u : User) : User :=
  {| User_Permissions := p; User_Limits := User_Limits u |}.

(** ** StringList *)

(** The [range] loop of [contains] over the elements not yet visited. *)
Fixpoint contains_range (p : string) (u : list string) : bool :=
  match u with
  | [] => false
  | t :: u' => if String.eqb t p then true else contains_range p u'
  end.

Definition contains (p : string) : method StringList bool :=
  u ← load; mret (contains_range p u).

(** [Add(p ...string)] on the values the loop reads, one iteration per
    value.  This is the method for a call with one value and for a call
    whose argument slice shares no cell with the receiver's array, as with
    an explicit argument list ([Add_slice_single], [Add_slice_values]);
    [Add_slice] below is the method on any slice. *)
Fixpoint Add (p : list string) : method StringList unit :=
  match p with
  | [] => mret tt
  | v :: p' =>
      c ← contains v;
      (if negb c && negb (String.eqb v "")
       then u ← load; store (u ++ [v])
       else mret tt);;
      Add p'
  end.

(** The inner [range] loop of [Remove]: [i] is the index reached and [rest]
    the elements of the ranged slice from [i] on.  At the first match the
    receiver becomes [append(a[:i], a[i+1:]...)] and the loop is left. *)
Fixpoint Remove_range (v : string) (i : nat) (rest : list string)
  : method StringList unit :=
  match rest with
  | [] => mret tt
  | t :: rest' =>
      if String.eqb t v
      then a ← load; store (take i a ++ drop (S i) a)
      else Remove_range v (S i) rest'
  end.

(** [Remove(p ...string)] on the values the loop reads, one iteration of
    the outer loop per value; like [Add], for a call with one value or with
    an argument that shares no cell with the receiver's array
    ([Remove_slice_single], [Remove_slice_values]); [Remove_slice] below is
    the method on any slice. *)
Fixpoint Remove (p : list string) : method StringList unit :=
  match p with
  | [] => mret tt
  | v :: p' =>
      (u ← load; Remove_range v 0 u);;
      Remove p'
  end.

(** ** StringList in memory *)

(** A slice value: the address of its first element, its length and its
    capacity. *)
Record slice : Type := Slice { ptr : nat; len : nat; cap : nat }.

(** What a [*StringList] method works on: the cells of the string arrays,
    by address, and the slice the receiver points to. *)
Record memory : Type := Memory { cells : list string; header : slice }.

(** [s[i]] *)
Definition at_index (h : list string) (s : slice) (i : nat) : string :=
  default "" (h !! (ptr s + i)).

(** The elements [s[0]], ..., [s[len(s)-1]]. *)
Definition elements (h : list string) (s : slice) : list string :=
  take (len s) (drop (ptr s) h).

Definition elems (m : memory) : list string := elements (cells m) (header m).

(** The slice lies in allocated memory. *)
Definition valid (h : list string) (s : slice) : Prop :=
  len s ≤ cap s ∧ ptr s + cap s ≤ length h.

(** The elements of a slice lie in allocated memory. *)
Definition within (h : list string) (p : slice) : Prop :=
  ptr p + len p ≤ length h.

(** The elements of [p] share no cell with the array of [u], up to its
    capacity. *)
Definition apart (p u : slice) : Prop :=
  ptr p + len p ≤ ptr u ∨ ptr u + cap u ≤ ptr p.

(** The cells after [append(a[:i], a[i+1:]...)]: the elements after index
    [i] move down by one inside the array of [a] (the capacity of [a[:i]]
    is that of [a], so nothing is allocated); the cell of the old last
    element keeps its value. *)
Definition cut (h : list string) (a : slice) (i : nat) : list string :=
  take (ptr a + i) h
  ++ take (len a - S i) (drop (ptr a + S i) h)
  ++ drop (ptr a + len a - 1) h.

Section Slices.

(** The capacity beyond the new length that the runtime gives a slice which
    [append] has to move, from the old capacity and the new length. *)
Variable spare : nat → nat → nat.

(** [append(s, v)]: in place when there is room, else into a new array at
    the end of memory. *)
Definition append_one (h : list string) (s : slice) (v : string) : memory :=
  if decide (len s < cap s)
  then Memory (<[ptr s + len s := v]> h) (Slice (ptr s) (S (len s)) (cap s))
  else Memory (h ++ elements h s ++ v :: replicate (spare (cap s) (S (len s))) "")
              (Slice (length h) (S (len s)) (S (len s) + spare (cap s) (S (len s)))).

(** [contains]: nothing is written while the elements are read. *)
Definition contains_slice (p : string) : method memory bool :=
  m ← load; mret (contains_range p (elements (cells m) (header m))).

(** The loop of [Add] over the slice [p]: [i] is the index reached, [n] the
    number of iterations left; [p[i]] is read when its turn comes. *)
Fixpoint Add_slice_range (p : slice) (i n : nat) : method memory unit :=
  match n with
  | 0 => mret tt
  | S n' =>
      m ← load;
      let v := at_index (cells m) p i in
      c ← contains_slice v;
      (if negb c && negb (String.eqb v "")
       then m ← load; store (append_one (cells m) (header m) v)
       else mret tt);;
      Add_slice_range p (S i) n'
  end.

Definition Add_slice (p : slice) : method memory unit :=
  Add_slice_range p 0 (len p).

(** The inner loop of [Remove] over the slice [s] that [*u] was when the
    loop began: [i] is the index reached, [n] the number of iterations
    left. *)
Fixpoint Remove_slice_scan (v : string) (s : slice) (i n : nat)
  : method memory unit :=
  match n with
  | 0 => mret tt
  | S n' =>
      m ← load;
      if String.eqb (at_index (cells m) s i) v
      then let a := header m in
           store (Memory (cut (cells m) a i) (Slice (ptr a) (len a - 1) (cap a)))
      else Remove_slice_scan v s (S i) n'
  end.

(** The outer loop of [Remove] over the slice [p]. *)
Fixpoint Remove_slice_range (p : slice) (j n : nat) : method memory unit :=
  match n with
  | 0 => mret tt
  | S n' =>
      m ← load;
      let v := at_index (cells m) p j in
      (m ← load; Remove_slice_scan v (header m) 0 (len (header m)));;
      Remove_slice_range p (S j) n'
  end.

Definition Remove_slice (p : slice) : method memory unit :=
  Remove_slice_range p 0 (len p).

End Slices.

(** ** Sample collaborators

    Concrete stand-ins for the parameters, used to run the methods on
    explicit inputs. *)

Definition dquote : string := String (Ascii.ascii_of_nat 34) EmptyString.

(** [strconv.Quote] on a string of printable ASCII characters that holds
    neither a double quote nor a backslash. *)
Definition sample_Quote (s : string) : string := dquote +:+ s +:+ dquote.

Definition zero_Limits : Limits :=
  {| Limits_Max := 0; Limits_Payload := 0; Limits_Src := ""; Limits_Times := [] |}.

Definition zero_OperatorLimits : OperatorLimits :=
  {| OperatorLimits_Subs := 0; OperatorLimits_Conn := 0; OperatorLimits_Maps := 0 |}.

(** The token ["tokenX"] is an activation named ["X"] whose only export
    has a type that is neither stream nor service; no other token decodes. *)
Definition sample_DecodeActivationClaims (token : string)
  : ActivationClaims + error :=
  if String.eqb token "tokenX"
  then inl {| ActivationClaims_Name := "X";
              ActivationClaims_Activation :=
                {| Activation_Exports :=
                     [ {| Export_Type := "bogus"; Export_Subject := "bar" |} ];
                   Activation_Limits := zero_Limits;
                   Activation_OperatorLimits := zero_OperatorLimits |} |}
  else inr (errors_New "invalid token").

(** The token ["jwtabc"] carries the ID ["abc"]; no other token decodes. *)
Definition sample_DecodeGeneric (token : string) : GenericClaims + error :=
  if String.eqb token "jwtabc"
  then inl {| GenericClaims_ID := "abc" |}
  else inr (errors_New "invalid token").

(** One account key is valid. *)
Definition sample_IsValidPublicAccountKey (key : string) : bool :=
  String.eqb key "ACSAMPLEACCOUNTKEY".

Definition mkImport (type account : string) : Import :=
  {| Import_Type := type; Import_Account := account;
     Import_Subject := ""; Import_To := ""; Import_Prefix := "" |}.

(** An account with one activation token, named ["X"], and one import
    from the account ["X"]. *)
Definition sample_Account : Account :=
  {| Account_Imports := [mkImport "stream" "X"]; Account_Act := ["tokenX"] |}.

(** The same with a second import, from an account that is neither a key
    nor an activation name, and a third one after it. *)
Definition sample_Account_unresolved : Account :=
  {| Account_Imports :=
       [mkImport "stream" "X"; mkImport "stream" "Y"; mkImport "service" "X"];
     Account_Act := ["tokenX"] |}.

(** An account whose second token does not decode. *)
Definition sample_Account_undecoded : Account :=
  {| Account_Imports := [mkImport "stream" "Y"];
     Account_Act := ["tokenX"; "garbage"; "tokenX"] |}.

(** A valid export followed by one of an unknown type. *)
Definition sample_Activation : Activation :=
  {| Activation_Exports :=
       [ {| Export_Type := "service"; Export_Subject := "foo" |};
         {| Export_Type := "bogus"; Export_Subject := "bar" |} ];
     Activation_Limits := zero_Limits;
     Activation_OperatorLimits := zero_OperatorLimits |}.

Definition mkRevocation (revoked jwt : string) : Revocation :=
  {| Revocation_Revoked := revoked; Revocation_JWT := jwt;
     Revocation_Reason := "" |}.

(** ** The validators *)

Section Claims.

Set Default Proof Using "Type".

(** [strconv.Quote], which the verb [%q] applies to its string. *)
Variable Quote : string → string.

(** [DecodeActivationClaims(token)]: the decoded claims, or the error.
    A nil error comes with a non-nil pointer. *)
Variable DecodeActivationClaims : string → ActivationClaims + error.

(** [DecodeGeneric(token)], likewise. *)
Variable DecodeGeneric : string → GenericClaims + error.

(** [nkeys.IsValidPublicAccountKey(key)]. *)
Variable IsValidPublicAccountKey : string → bool.

Definition Import_Valid : method Import (option error) :=
  a ← load;
  if negb (String.eqb (Import_Type a) ImportExportTypeService)
     && negb (String.eqb (Import_Type a) ImportExportTypeStream)
  then mret (Some (fmt_Errorf
         ("import type " +:+ Quote (Import_Type a) +:+ " is invalid")))
  else mret None.

Definition AppendActivation (act : string) : method Account unit :=
  a ← load;
  store {| Account_Imports := Account_Imports a;
           Account_Act := Account_Act a ++ [act] |}.

(** The loop of [Activations]: [i] is the index reached, [act] the
    entries of [a.Act] from [i] on, [buf] the claims decoded so far. *)
Fixpoint Activations_range (i : nat) (act : list string)
    (buf : list ActivationClaims)
  : method Account (list ActivationClaims + error) :=
  match act with
  | [] => mret (inl buf)
  | s :: act' =>
      r ← extern (CallDecodeActivationClaims s) (DecodeActivationClaims s);
      match r with
      | inr err =>
          mret (inr (fmt_Errorf
            ("error decoding activation [" +:+ fmt_d i +:+ "]: " +:+ fmt_v err)))
      | inl ac => Activations_range (S i) act' (buf ++ [ac])
      end
  end.

Definition Activations : method Account (list ActivationClaims + error) :=
  a ← load; Activations_range 0 (Account_Act a) [].

(** The first loop of [Account.Valid]: [tokenMap[t.Name] = true]. *)
Fixpoint Valid_tokenMap (activations : list ActivationClaims)
    (tokenMap : gmap string bool) : gmap string bool :=
  match activations with
  | [] => tokenMap
  | t :: rest =>
      Valid_tokenMap rest (<[ActivationClaims_Name t := true]> tokenMap)
  end.

(** [tokenMap[k]]: a key that is absent reads as [false]. *)
Definition index (tokenMap : gmap string bool) (k : string) : bool :=
  default false (tokenMap !! k).

(** The second loop of [Account.Valid]. *)
Fixpoint Valid_imports (tokenMap : gmap string bool) (imports : list Import)
  : method Account (option error) :=
  match imports with
  | [] => mret None
  | t :: rest =>
      ok ← extern (CallIsValidPublicAccountKey (Import_Account t))
                  (IsValidPublicAccountKey (Import_Account t));
      if negb ok && negb (index tokenMap (Import_Account t))
      then mret (Some (fmt_Errorf
             ("import references account " +:+ Quote (Import_Account t) +:+
              " - but it is not an account pk nor an activation token name")))
      else Valid_imports tokenMap rest
  end.

Definition Account_Valid : method Account (option error) :=
  r ← Activations;
  match r with
  | inr err => mret (Some err)
  | inl activations =>
      let tokenMap := Valid_tokenMap activations ∅ in
      a ← load;
      Valid_imports tokenMap (Account_Imports a)
  end.

Definition Permissions_Valid : method Permissions (option error) :=
  mret None.

Definition Export_Valid : method Export (option error) :=
  e ← load;
  if negb (String.eqb (Export_Type e) ImportExportTypeService)
     && negb (String.eqb (Export_Type e) ImportExportTypeStream)
  then mret (Some (fmt_Errorf
         ("export type " +:+ Quote (Export_Type e) +:+ " is invalid")))
  else if String.eqb (Export_Subject e) ""
  then mret (Some (errors_New "export subject is empty"))
  else mret None.

(** The loop of [Activation.Valid]; [t] is a copy of the element. *)
Fixpoint Activation_Valid_range (i : nat) (exports : list Export)
  : method Activation (option error) :=
  match exports with
  | [] => mret None
  | t :: rest =>
      r ← on_copy t Export_Valid;
      match r with
      | Some err =>
          mret (Some (fmt_Errorf
            ("error validating activation (index " +:+ fmt_d i +:+ "):"
             +:+ fmt_v err)))
      | None => Activation_Valid_range (S i) rest
      end
  end.

Definition Activation_Valid : method Activation (option error) :=
  a ← load; Activation_Valid_range 0 (Activation_Exports a).

Definition Operator_Valid : method Operator (option error) :=
  mret None.

(** [Server] has no [Valid] of its own: the one of the embedded
    [Permissions] is promoted. *)
Definition Server_Valid : method Server (option error) :=
  promoted Server_Permissions set_Server_Permissions Permissions_Valid.

(** [User] likewise ([Limits] has no methods). *)
Definition User_Valid : method User (option error) :=
  promoted User_Permissions set_User_Permissions Permissions_Valid.

Definition Revocation_Valid : method Revocation (option error) :=
  u ← load;
  if String.eqb (Revocation_JWT u) ""
  then mret (Some (fmt_Errorf
         "error validating revocation token, no JWT to revoke"))
  else if String.eqb (Revocation_Revoked u) ""
  then mret (Some (fmt_Errorf
         "error validating revocation token, no revoked id specified"))
  else
    r ← extern (CallDecodeGeneric (Revocation_JWT u))
               (DecodeGeneric (Revocation_JWT u));
    match r with
    | inr err => mret (Some err)
    | inl theJWT =>
        if negb (String.eqb (GenericClaims_ID theJWT) (Revocation_Revoked u))
        then mret (Some (fmt_Errorf
               "error validating revocation token, id in the child JWT doesn't match revoked id"))
        else mret None
    end.

(** The tokens of [act] decode, in order, to the claims [acs]. *)
Abbreviation decodes_to act acs :=
  (Forall2 (λ s ac, DecodeActivationClaims s = inl ac) act acs).

(** ** Running the building blocks *)

Lemma bind_run {R A B} (m : method R A) (k : A → method R B) (st : state R) :
  (m ≫= k) st = k (m st).1 (m st).2.
Proof. unfold mbind, method_bind. by destruct (m st). Qed.

Lemma ret_run {R A} (x : A) (st : state R) :
  (mret x : method R A) st = (x, st).
Proof. reflexivity. Qed.

Lemma state_eta {R} (st : state R) : State (self st) (calls st) = st.
Proof. by destruct st. Qed.

(** Proofs about [StringList] do not mention the collaborators. *)
Ltac no_collaborators :=
  clear Quote DecodeActivationClaims DecodeGeneric IsValidPublicAccountKey.

Ltac step :=
  repeat first
    [ rewrite bind_run
    | rewrite ret_run
    | progress cbn [load store extern on_copy promoted fst snd self calls] ].

(** ** StringList *)

Lemma contains_range_true (p : string) (u : list string) :
  contains_range p u = true ↔ p ∈ u.
Proof.
  induction u as [|t u IH]; cbn.
  - split; [discriminate | by intros ?%elem_of_nil].
  - rewrite elem_of_cons. destruct (String.eqb_spec t p) as [->|Hne].
    + split; [by left | done].
    + rewrite IH. split; [by right | by intros [->|?]].
Qed.

Lemma contains_range_false (p : string) (u : list string) :
  contains_range p u = false ↔ p ∉ u.
Proof.
  rewrite <- contains_range_true. by destruct (contains_range p u).
Qed.

Lemma contains_run (p : string) (st : state StringList) :
  contains p st = (contains_range p (self st), st).
Proof. reflexivity. Qed.

(** One iteration of the loop of [Add]. *)
Lemma Add_cons_run (v : string) (p : list string) (st : state StringList) :
  Add (v :: p) st =
  Add p (State (if negb (contains_range v (self st)) && negb (String.eqb v "")
                then self st ++ [v] else self st) (calls st)).
Proof.
  cbn [Add]. step. rewrite contains_run. step.
  destruct (negb _ && negb _); step; [done | by rewrite state_eta].
Qed.

Lemma Add_nil_run (st : state StringList) : Add [] st = (tt, st).
Proof. reflexivity. Qed.

Lemma Add_single_run (v : string) (st : state StringList) :
  Add [v] st =
  (tt, State (if negb (contains_range v (self st)) && negb (String.eqb v "")
              then self st ++ [v] else self st) (calls st)).
Proof. by rewrite Add_cons_run, Add_nil_run. Qed.

(** What a call of [Add] appends: the values of [p] that are non-empty
    and new, each once, in the order in which [p] first gives them. *)
Lemma Add_run (p : list string) : ∀ st : state StringList,
  ∃ ext : list string,
    Add p st = (tt, State (self st ++ ext) (calls st)) ∧
    NoDup ext ∧
    (∀ x, x ∈ ext ↔ x ∈ p ∧ x ≠ "" ∧ x ∉ self st) ∧
    sublist ext p.
Proof.
  no_collaborators. induction p as [|v p IH]; intros st.
  - exists []. split; [by rewrite Add_nil_run, app_nil_r, state_eta|].
    split; [constructor|]. split; [|constructor].
    intros x. split; [by intros ?%elem_of_nil | by intros [?%elem_of_nil _]].
  - rewrite Add_cons_run.
    destruct (decide (v ∈ self st ∨ v = "")) as [Hskip|Hnew].
    + assert (negb (contains_range v (self st)) && negb (String.eqb v "") = false)
        as ->.
      { destruct Hskip as [Hc%contains_range_true | ->].
        - by rewrite Hc.
        - apply andb_false_r. }
      destruct (IH (State (self st) (calls st)))
        as (ext & Hrun & Hnd & Hin & Hsub).
      cbn [self calls] in *. exists ext.
      split; [done|]. split; [done|]. split; [|by apply sublist_cons].
      intros x. rewrite Hin, elem_of_cons. split; [tauto|].
      intros ([->|?] & ? & ?); [|tauto]. by destruct Hskip.
    + assert ((v ∉ self st) ∧ v ≠ "") as [Hc Hv] by tauto.
      assert (negb (contains_range v (self st)) && negb (String.eqb v "") = true)
        as ->.
      { apply contains_range_false in Hc. rewrite Hc.
        by destruct (String.eqb_spec v ""). }
      destruct (IH (State (self st ++ [v]) (calls st)))
        as (ext & Hrun & Hnd & Hin & Hsub).
      cbn [self calls] in *. exists (v :: ext).
      split; [by rewrite Hrun, <- app_assoc|].
      split; [|split; [|by apply sublist_skip]].
      * constructor; [|done]. intros (_ & _ & Hx)%Hin.
        apply Hx, elem_of_app. right. by left.
      * intros x.
        rewrite !elem_of_cons, Hin, not_elem_of_app, list_elem_of_singleton.
        destruct (decide (x = v)) as [->|]; tauto.
Qed.

(** Calls of [Add] with one value: a second call changes nothing; after
    the two calls the list holds a non-empty value once if it held it at
    most once; the empty string is never added. *)
Lemma Add_twice (l : StringList) :
  (∀ v, after (Add [v];; Add [v]) l = after (Add [v]) l) ∧
  (∀ v, v ≠ "" → count_occ String.string_dec l v ≤ 1 →
        count_occ String.string_dec (after (Add [v];; Add [v]) l) v = 1) ∧
  after (Add [""]) l = l.
Proof.
  assert (Hidem : ∀ p, after (Add p;; Add p) l = after (Add p) l).
  { intros p. unfold after, run. rewrite bind_run.
    destruct (Add_run p (State l [])) as (ext & Hrun & _ & Hin & _).
    rewrite Hrun. cbn [fst snd self calls] in *.
    destruct (Add_run p (State (l ++ ext) [])) as (ext' & Hrun' & _ & Hin' & _).
    rewrite Hrun'. cbn [fst snd self calls] in *.
    destruct ext' as [|x ext']; [by rewrite app_nil_r|].
    exfalso. destruct (Hin' x) as [(Hp & Hne & Hnot) _]; [by left|].
    apply Hnot, elem_of_app.
    destruct (decide (x ∈ l)); [by left|right]. by apply Hin. }
  split; [intros v; apply Hidem|]. split.
  - intros v Hv Hcount. rewrite Hidem. unfold after, run.
    rewrite Add_single_run. cbn [snd self].
    destruct (String.eqb_spec v "") as [|_]; [done|].
    destruct (contains_range v l) eqn:Hc; cbn [negb andb].
    + apply contains_range_true, list_elem_of_In in Hc.
      apply (count_occ_In String.string_dec) in Hc. lia.
    + apply contains_range_false in Hc. rewrite list_elem_of_In in Hc.
      apply (count_occ_not_In String.string_dec) in Hc.
      rewrite count_occ_app, Hc. cbn. by destruct (String.string_dec v v).
  - unfold after, run. rewrite Add_single_run. cbn.
    by rewrite andb_false_r.
Qed.

Lemma Remove_range_absent (v : string) (rest : list string) :
  v ∉ rest → ∀ (i : nat) (st : state StringList),
  Remove_range v i rest st = (tt, st).
Proof.
  induction rest as [|t rest IH]; intros Hv i st; [done|].
  apply not_elem_of_cons in Hv as [Hne Hv]. cbn [Remove_range].
  destruct (String.eqb_spec t v) as [->|_]; [done | by apply IH].
Qed.

(** The scan stops at the first element equal to [v] and cuts it out. *)
Lemma Remove_range_first (v : string) (r1 r2 : list string) :
  v ∉ r1 → ∀ (i : nat) (st : state StringList),
  Remove_range v i (r1 ++ v :: r2) st =
  (tt, State (take (i + length r1) (self st) ++ drop (S (i + length r1)) (self st))
             (calls st)).
Proof.
  induction r1 as [|t r1 IH]; intros Hv i st; cbn [app Remove_range length].
  - rewrite String.eqb_refl. step. by rewrite Nat.add_0_r.
  - apply not_elem_of_cons in Hv as [Hne Hv].
    destruct (String.eqb_spec t v) as [->|_]; [done|].
    rewrite IH by done. by rewrite Nat.add_succ_r.
Qed.

Lemma Remove_single_run (v : string) (st : state StringList) :
  Remove [v] st = Remove_range v 0 (self st) st.
Proof.
  cbn [Remove]. step. by destruct (Remove_range v 0 (self st) st) as [[] ?].
Qed.

Lemma Remove_single_first (v : string) (l1 l2 : list string) :
  v ∉ l1 → after (Remove [v]) (l1 ++ v :: l2) = l1 ++ l2.
Proof.
  intros Hv. unfold after, run. rewrite Remove_single_run. cbn [self].
  rewrite Remove_range_first by done. cbn [snd self plus].
  rewrite take_app_length, (cons_middle v l1 l2), app_assoc.
  rewrite drop_app_length'; [done|]. rewrite length_app. cbn. lia.
Qed.

Lemma contains_after_Remove (v : string) (l : StringList) :
  result (Remove [v];; contains v) l = contains_range v (after (Remove [v]) l).
Proof. unfold result, after, run. by rewrite bind_run, contains_run. Qed.

(** C7 (as amended).  When [v] is in the list, [Remove(v)] cuts out its
    first occurrence and nothing else, so that [contains(v)] is false
    afterwards exactly when no further occurrence follows, which is the
    case whenever the list has no duplicates; when [v] is not in the list,
    [Remove(v)] leaves the list as it is. *)
Theorem Remove_cuts_first_occurrence (l : StringList) (v : string) :
  (v ∈ l →
     ∃ l1 l2, l = l1 ++ v :: l2 ∧ (v ∉ l1) ∧
              after (Remove [v]) l = l1 ++ l2 ∧
              (result (Remove [v];; contains v) l = false ↔ v ∉ l2)) ∧
  (v ∈ l → NoDup l → result (Remove [v];; contains v) l = false) ∧
  (v ∉ l → after (Remove [v]) l = l).
Proof.
  no_collaborators. split; [|split].
  - intros (l1 & l2 & -> & Hv)%list_elem_of_split_l.
    exists l1, l2. split; [done|]. split; [done|].
    split; [by apply Remove_single_first|].
    rewrite contains_after_Remove, Remove_single_first by done.
    rewrite contains_range_false, not_elem_of_app. tauto.
  - intros (l1 & l2 & -> & Hv)%list_elem_of_split_l Hnd.
    rewrite contains_after_Remove, Remove_single_first by done.
    apply contains_range_false, not_elem_of_app. split; [done|].
    apply NoDup_app in Hnd as (_ & _ & Hnd). by apply NoDup_cons in Hnd as [? _].
  - intros Hv. unfold after, run.
    by rewrite Remove_single_run, Remove_range_absent.
Qed.

(** ** Import and Export *)

Lemma Import_Valid_run (st : state Import) :
  Import_Valid st =
  (if negb (String.eqb (Import_Type (self st)) ImportExportTypeService)
      && negb (String.eqb (Import_Type (self st)) ImportExportTypeStream)
   then Some (fmt_Errorf
          ("import type " +:+ Quote (Import_Type (self st)) +:+ " is invalid"))
   else None, st).
Proof. unfold Import_Valid. step. by destruct (negb _ && negb _). Qed.

Lemma Export_Valid_run (st : state Export) :
  Export_Valid st =
  (if negb (String.eqb (Export_Type (self st)) ImportExportTypeService)
      && negb (String.eqb (Export_Type (self st)) ImportExportTypeStream)
   then Some (fmt_Errorf
          ("export type " +:+ Quote (Export_Type (self st)) +:+ " is invalid"))
   else if String.eqb (Export_Subject (self st)) ""
   then Some (errors_New "export subject is empty")
   else None, st).
Proof.
  unfold Export_Valid. step.
  destruct (negb _ && negb _); [done|]. by destruct (String.eqb _ "").
Qed.

(** C6.  [Import.Valid] returns nil exactly when the type is ["stream"] or
    ["service"], and two imports of the same type get the same result
    whatever their account, subject, to and prefix are. *)
Theorem Import_Valid_only_type (i : Import) :
  (result Import_Valid i = None ↔
     Import_Type i = "stream" ∨ Import_Type i = "service") ∧
  (∀ account subject to prefix,
     result Import_Valid
       {| Import_Type := Import_Type i; Import_Account := account;
          Import_Subject := subject; Import_To := to; Import_Prefix := prefix |}
     = result Import_Valid i).
Proof.
  unfold result, run. split.
  - rewrite Import_Valid_run. cbn [fst self].
    unfold ImportExportTypeService, ImportExportTypeStream.
    destruct (String.eqb_spec (Import_Type i) "service") as [->|Hsvc];
      cbn [negb andb]; [by split; [right|]|].
    destruct (String.eqb_spec (Import_Type i) "stream") as [->|Hstr];
      cbn [negb andb]; [by split; [left|]|].
    split; [done | by intros [?|?]].
  - intros. by rewrite !Import_Valid_run.
Qed.

(** C3.  [Export.Valid] returns nil exactly when the type is ["stream"] or
    ["service"] and the subject is not empty; when the type is neither, the
    result is the invalid-type error whatever the subject is, and that
    error is not the empty-subject one. *)
Theorem Export_Valid_type_then_subject (e : Export) :
  (result Export_Valid e = None ↔
     (Export_Type e = "stream" ∨ Export_Type e = "service") ∧
     Export_Subject e ≠ "") ∧
  (Export_Type e ≠ "stream" → Export_Type e ≠ "service" →
     result Export_Valid e =
       Some (fmt_Errorf ("export type " +:+ Quote (Export_Type e) +:+ " is invalid")) ∧
     result Export_Valid e ≠ Some (errors_New "export subject is empty")) ∧
  ((Export_Type e = "stream" ∨ Export_Type e = "service") →
     Export_Subject e = "" →
     result Export_Valid e = Some (errors_New "export subject is empty")).
Proof.
  unfold result, run. rewrite Export_Valid_run. cbn [fst self].
  unfold ImportExportTypeService, ImportExportTypeStream.
  destruct (String.eqb_spec (Export_Type e) "service") as [Hsvc|Hsvc];
    [|destruct (String.eqb_spec (Export_Type e) "stream") as [Hstr|Hstr]];
    cbn [negb andb].
  3: { split; [split; [done | tauto]|]. split; [|tauto].
       intros _ _. split; [done|]. cbn. discriminate. }
  all: destruct (String.eqb_spec (Export_Subject e) "") as [Hsub|Hsub].
  all: split; [split; [try done; tauto | try done; tauto]|].
  all: split; [intros; congruence | try done; tauto].
Qed.

(** ** Activation *)

(** [t.Valid()] on the loop variable: the result of [Export.Valid] on
    [t], and nothing else changes. *)
Lemma on_copy_Export_Valid {R} (t : Export) (st : state R) :
  on_copy t Export_Valid st = (result Export_Valid t, st).
Proof.
  unfold on_copy, result, run. rewrite !Export_Valid_run.
  cbn [fst self calls]. by rewrite state_eta.
Qed.

Lemma Activation_Valid_range_pass (exports : list Export) :
  (∀ t, t ∈ exports → result Export_Valid t = None) →
  ∀ (i : nat) (st : state Activation),
  Activation_Valid_range i exports st = (None, st).
Proof.
  induction exports as [|t exports IH]; intros Hok i st; [done|].
  cbn [Activation_Valid_range]. step. rewrite on_copy_Export_Valid.
  cbn [fst snd]. rewrite Hok by by left.
  apply IH. intros t' Ht'. apply Hok. by right.
Qed.

Lemma Activation_Valid_range_fail (pre : list Export) (t : Export)
    (post : list Export) (err : error) :
  (∀ t', t' ∈ pre → result Export_Valid t' = None) →
  result Export_Valid t = Some err →
  ∀ (i : nat) (st : state Activation),
  Activation_Valid_range i (pre ++ t :: post) st =
  (Some (fmt_Errorf ("error validating activation (index "
                     +:+ fmt_d (i + length pre) +:+ "):" +:+ fmt_v err)), st).
Proof.
  intros Hpre Ht. induction pre as [|t0 pre IH]; intros i st;
    cbn [app Activation_Valid_range length]; step;
    rewrite on_copy_Export_Valid; cbn [fst snd].
  - rewrite Ht, Nat.add_0_r. by step.
  - rewrite Hpre by by left. rewrite IH, Nat.add_succ_r; [done|].
    intros t' Ht'. apply Hpre. by right.
Qed.

(** The exports of a list are all valid, or there is a first one that is
    not. *)
Lemma first_invalid_export (exports : list Export) :
  (∀ t, t ∈ exports → result Export_Valid t = None) ∨
  (∃ pre t post err, exports = pre ++ t :: post ∧
     (∀ t', t' ∈ pre → result Export_Valid t' = None) ∧
     result Export_Valid t = Some err).
Proof.
  induction exports as [|t exports [IH|(pre & t1 & post & err & -> & Hpre & Ht1)]].
  - left. by intros t ?%elem_of_nil.
  - destruct (result Export_Valid t) as [err|] eqn:Ht.
    + right. exists [], t, exports, err. split; [done|]. split; [|done].
      by intros t' ?%elem_of_nil.
    + left. intros t' [->|?]%elem_of_cons; [done | by apply IH].
  - right. destruct (result Export_Valid t) as [err0|] eqn:Ht.
    + exists [], t, (pre ++ t1 :: post), err0. split; [done|]. split; [|done].
      by intros t' ?%elem_of_nil.
    + exists (t :: pre), t1, post, err. split; [done|]. split; [|done].
      intros t' [->|?]%elem_of_cons; [done | by apply Hpre].
Qed.

(** C4.  [Activation.Valid] returns, for the first export whose [Valid]
    fails, an error made of that export's zero-based index and of the
    export's error, whatever the exports after it are; it returns nil
    exactly when every export is valid, so in particular when there is
    none. *)
Theorem Activation_Valid_first_failure (a : Activation) :
  (∀ pre t post err,
     Activation_Exports a = pre ++ t :: post →
     (∀ t', t' ∈ pre → result Export_Valid t' = None) →
     result Export_Valid t = Some err →
     result Activation_Valid a =
       Some (fmt_Errorf ("error validating activation (index "
                         +:+ pretty (length pre) +:+ "):" +:+ Error err))) ∧
  (result Activation_Valid a = None ↔
     ∀ t, t ∈ Activation_Exports a → result Export_Valid t = None) ∧
  (Activation_Exports a = [] → result Activation_Valid a = None).
Proof.
  assert (Hrun : result Activation_Valid a =
                 (Activation_Valid_range 0 (Activation_Exports a) (State a [])).1).
  { unfold result, run, Activation_Valid. by step. }
  rewrite Hrun. split; [|split].
  - intros pre t post err -> Hpre Ht.
    by rewrite (Activation_Valid_range_fail pre t post err).
  - split.
    + intros Hnone.
      destruct (first_invalid_export (Activation_Exports a))
        as [Hall|(pre & t & post & err & Heq & Hpre & Ht)]; [done|].
      rewrite Heq, (Activation_Valid_range_fail pre t post err) in Hnone by done.
      done.
    + intros Hall. by rewrite Activation_Valid_range_pass.
  - intros ->. done.
Qed.

(** ** Account *)

(** Every element of a list passes a test, or there is a first one that
    does not. *)
Lemma first_false {A} (f : A → bool) (l : list A) :
  (∀ x, x ∈ l → f x = true) ∨
  (∃ pre x post, l = pre ++ x :: post ∧ (∀ y, y ∈ pre → f y = true) ∧ f x = false).
Proof.
  induction l as [|x l [IH|(pre & x1 & post & -> & Hpre & Hx1)]].
  - left. by intros x ?%elem_of_nil.
  - destruct (f x) eqn:Hx.
    + left. intros y [->|?]%elem_of_cons; [done | by apply IH].
    + right. exists [], x, l. split; [done|]. split; [|done].
      by intros y ?%elem_of_nil.
  - right. destruct (f x) eqn:Hx.
    + exists (x :: pre), x1, post. split; [done|]. split; [|done].
      intros y [->|?]%elem_of_cons; [done | by apply Hpre].
    + exists [], x, (pre ++ x1 :: post). split; [done|]. split; [|done].
      by intros y ?%elem_of_nil.
Qed.

Lemma decodes_to_exists (act : list string) :
  (∀ s, s ∈ act → ∃ ac, DecodeActivationClaims s = inl ac) →
  ∃ acs, decodes_to act acs.
Proof.
  induction act as [|s act IH]; intros Hall.
  - exists []. constructor.
  - destruct (Hall s) as [ac Hac]; [by left|].
    destruct IH as [acs Hacs]; [intros s' ?; apply Hall; by right|].
    exists (ac :: acs). by constructor.
Qed.

Lemma decodes_to_elem_of (act : list string) (acs : list ActivationClaims) :
  decodes_to act acs →
  ∀ ac, ac ∈ acs ↔ ∃ s, s ∈ act ∧ DecodeActivationClaims s = inl ac.
Proof.
  induction 1 as [|s ac0 act acs Hs _ IH]; intros ac.
  - split; [by intros ?%elem_of_nil | by intros (? & ?%elem_of_nil & _)].
  - rewrite elem_of_cons, IH. split.
    + intros [->|(s' & ? & ?)]; [exists s | exists s']; split; try done;
        [by left | by right].
    + intros (s' & [->|?]%elem_of_cons & Hs'); [left; congruence|].
      right. by exists s'.
Qed.

Lemma Activations_range_pass (act : list string) (acs : list ActivationClaims) :
  decodes_to act acs →
  ∀ (i : nat) (buf : list ActivationClaims) (st : state Account),
  Activations_range i act buf st =
  (inl (buf ++ acs),
   State (self st) (calls st ++ map CallDecodeActivationClaims act)).
Proof.
  induction 1 as [|s ac act acs Hs _ IH]; intros i buf st.
  - cbn. by rewrite !app_nil_r, state_eta.
  - cbn [Activations_range map]. step. rewrite Hs, IH. cbn [self calls].
    by rewrite <- !app_assoc.
Qed.

Lemma Activations_range_fail (pre : list string) (acs : list ActivationClaims)
    (s : string) (post : list string) (err : error) :
  decodes_to pre acs →
  DecodeActivationClaims s = inr err →
  ∀ (i : nat) (buf : list ActivationClaims) (st : state Account),
  Activations_range i (pre ++ s :: post) buf st =
  (inr (fmt_Errorf ("error decoding activation [" +:+ fmt_d (i + length pre)
                    +:+ "]: " +:+ fmt_v err)),
   State (self st) (calls st ++ map CallDecodeActivationClaims (pre ++ [s]))).
Proof.
  intros Hpre Hs. induction Hpre as [|s0 ac pre acs Hs0 _ IH]; intros i buf st;
    cbn [app Activations_range map length]; step.
  - rewrite Hs, Nat.add_0_r. by step.
  - rewrite Hs0, IH, Nat.add_succ_r. cbn [self calls]. by rewrite <- app_assoc.
Qed.

Lemma index_insert (m : gmap string bool) (n k : string) :
  index (<[n := true]> m) k = true ↔ n = k ∨ index m k = true.
Proof.
  unfold index. destruct (decide (n = k)) as [->|Hne].
  - rewrite lookup_insert_eq. cbn. by split; [left|].
  - rewrite lookup_insert_ne by done. split; [by right | by intros [?|?]].
Qed.

(** The lookup set holds exactly the names of the decoded activations. *)
Lemma index_Valid_tokenMap (acs : list ActivationClaims) :
  ∀ (m : gmap string bool) (k : string),
  index (Valid_tokenMap acs m) k = true ↔
  index m k = true ∨ ∃ ac, ac ∈ acs ∧ ActivationClaims_Name ac = k.
Proof.
  induction acs as [|t acs IH]; intros m k; cbn [Valid_tokenMap].
  - split; [by left | by intros [?|(? & ?%elem_of_nil & _)]].
  - rewrite IH, index_insert. split.
    + intros [[Hn|?]|(ac & ? & ?)]; [right; exists t | by left | right; exists ac];
        (split; [|done]); [by left | by right].
    + intros [?|(ac & [->|?]%elem_of_cons & ?)];
        [by left; right | by left; left | right; by exists ac].
Qed.

Lemma Valid_imports_pass (tokenMap : gmap string bool) (imports : list Import) :
  (∀ t, t ∈ imports →
     IsValidPublicAccountKey (Import_Account t)
     || index tokenMap (Import_Account t) = true) →
  ∀ st : state Account,
  Valid_imports tokenMap imports st =
  (None, State (self st)
           (calls st ++ map (λ t, CallIsValidPublicAccountKey (Import_Account t))
                            imports)).
Proof.
  induction imports as [|t imports IH]; intros Hok st.
  - cbn. by rewrite app_nil_r, state_eta.
  - cbn [Valid_imports map]. step.
    rewrite <- negb_orb, Hok by by left. cbn [negb].
    rewrite IH by (intros t' ?; apply Hok; by right).
    cbn [self calls]. by rewrite <- app_assoc.
Qed.

Lemma Valid_imports_fail (tokenMap : gmap string bool)
    (pre : list Import) (t : Import) (post : list Import) :
  (∀ t', t' ∈ pre →
     IsValidPublicAccountKey (Import_Account t')
     || index tokenMap (Import_Account t') = true) →
  IsValidPublicAccountKey (Import_Account t)
  || index tokenMap (Import_Account t) = false →
  ∀ st : state Account,
  Valid_imports tokenMap (pre ++ t :: post) st =
  (Some (fmt_Errorf
     ("import references account " +:+ Quote (Import_Account t) +:+
      " - but it is not an account pk nor an activation token name")),
   State (self st)
         (calls st ++ map (λ t, CallIsValidPublicAccountKey (Import_Account t))
                          (pre ++ [t]))).
Proof.
  intros Hpre Ht. induction pre as [|t0 pre IH]; intros st;
    cbn [app Valid_imports map]; step; rewrite <- negb_orb.
  - rewrite Ht. cbn [negb]. by step.
  - rewrite Hpre by by left. cbn [negb].
    rewrite IH by (intros t' ?; apply Hpre; by right).
    cbn [self calls]. by rewrite <- app_assoc.
Qed.

Lemma Activations_run (st : state Account) :
  Activations st = Activations_range 0 (Account_Act (self st)) [] st.
Proof. unfold Activations. by step. Qed.

(** [Account.Valid] once every token has decoded. *)
Lemma Account_Valid_decoded (acs : list ActivationClaims) (st : state Account) :
  decodes_to (Account_Act (self st)) acs →
  Account_Valid st =
  Valid_imports (Valid_tokenMap acs ∅) (Account_Imports (self st))
    (State (self st)
           (calls st ++ map CallDecodeActivationClaims (Account_Act (self st)))).
Proof.
  intros Hacs. unfold Account_Valid. step.
  rewrite Activations_run, (Activations_range_pass _ acs) by done.
  cbn [fst snd app]. by step.
Qed.

(** [Account.Valid] when a token fails to decode. *)
Lemma Account_Valid_undecoded (pre : list string) (acs : list ActivationClaims)
    (s : string) (post : list string) (err : error) (st : state Account) :
  Account_Act (self st) = pre ++ s :: post →
  decodes_to pre acs →
  DecodeActivationClaims s = inr err →
  Account_Valid st =
  (Some (fmt_Errorf ("error decoding activation [" +:+ fmt_d (length pre)
                     +:+ "]: " +:+ fmt_v err)),
   State (self st) (calls st ++ map CallDecodeActivationClaims (pre ++ [s]))).
Proof.
  intros Hact Hpre Hs. unfold Account_Valid. step.
  rewrite Activations_run, Hact, (Activations_range_fail pre acs s post err) by done.
  cbn [fst snd plus]. by step.
Qed.

(** An import is resolved through the lookup set exactly when it is
    resolved through some decoded activation. *)
Lemma resolved_iff (act : list string) (acs : list ActivationClaims) (t : Import) :
  decodes_to act acs →
  IsValidPublicAccountKey (Import_Account t)
  || index (Valid_tokenMap acs ∅) (Import_Account t) = true ↔
  IsValidPublicAccountKey (Import_Account t) = true ∨
  ∃ s ac, s ∈ act ∧ DecodeActivationClaims s = inl ac ∧
          ActivationClaims_Name ac = Import_Account t.
Proof.
  intros Hacs. rewrite orb_true_iff, index_Valid_tokenMap.
  unfold index at 1. rewrite lookup_empty. cbn [default]. split.
  - intros [?|[?|(ac & Hac & ?)]]; [by left | done | right].
    apply (decodes_to_elem_of _ _ Hacs) in Hac as (s & ? & ?). by exists s, ac.
  - intros [?|(s & ac & ? & ? & ?)]; [by left | right; right].
    exists ac. split; [|done]. apply (decodes_to_elem_of _ _ Hacs). by exists s.
Qed.

(** [Account.Valid] on an account whose tokens all decode and whose
    imports are all resolved. *)
Lemma Account_Valid_pass (a : Account) :
  (∀ s, s ∈ Account_Act a → ∃ ac, DecodeActivationClaims s = inl ac) →
  (∀ t, t ∈ Account_Imports a →
     IsValidPublicAccountKey (Import_Account t) = true ∨
     ∃ s ac, s ∈ Account_Act a ∧ DecodeActivationClaims s = inl ac ∧
             ActivationClaims_Name ac = Import_Account t) →
  run Account_Valid a =
  (None, State a (map CallDecodeActivationClaims (Account_Act a) ++
                  map (λ t, CallIsValidPublicAccountKey (Import_Account t))
                      (Account_Imports a))).
Proof.
  intros Hdec Hres. destruct (decodes_to_exists _ Hdec) as [acs Hacs].
  unfold run. rewrite (Account_Valid_decoded acs) by done. cbn [self calls app].
  rewrite Valid_imports_pass; [done|].
  intros t Ht. by apply (resolved_iff _ _ t Hacs), Hres.
Qed.

(** C5.  When the token at some index of [a.Act] is the first that fails
    to decode, [Account.Valid] (like [Account.Activations]) returns an error
    made of that index and of the decode error; the decoder has then been
    called on the tokens up to and including that one, in order, and on no
    later token, and no import's account has been looked at. *)
Theorem Account_Valid_first_decode_failure
    (a : Account) (pre : list string) (s : string) (post : list string)
    (err : error) :
  Account_Act a = pre ++ s :: post →
  (∀ s', s' ∈ pre → ∃ ac, DecodeActivationClaims s' = inl ac) →
  DecodeActivationClaims s = inr err →
  result Account_Valid a =
    Some (fmt_Errorf ("error decoding activation [" +:+ pretty (length pre)
                      +:+ "]: " +:+ Error err)) ∧
  result Activations a =
    inr (fmt_Errorf ("error decoding activation [" +:+ pretty (length pre)
                     +:+ "]: " +:+ Error err)) ∧
  trace Account_Valid a = map CallDecodeActivationClaims (pre ++ [s]).
Proof.
  intros Hact Hpre Hs. destruct (decodes_to_exists pre Hpre) as [acs Hacs].
  unfold result, trace, run.
  rewrite (Account_Valid_undecoded pre acs s post err) by done.
  rewrite Activations_run. cbn [self]. rewrite Hact.
  by rewrite (Activations_range_fail pre acs s post err).
Qed.

(** C1.  When every token of [a.Act] decodes, [Account.Valid] returns nil
    exactly when the account of every import is a valid public account key
    or the name of some decoded activation; and when some import is the
    first whose account is neither, the result is the error naming that
    account, and no later import's account has been looked at. *)
Theorem Account_Valid_resolves_imports (a : Account) :
  (∀ s, s ∈ Account_Act a → ∃ ac, DecodeActivationClaims s = inl ac) →
  let resolved (t : Import) : Prop :=
    IsValidPublicAccountKey (Import_Account t) = true ∨
    ∃ s ac, s ∈ Account_Act a ∧ DecodeActivationClaims s = inl ac ∧
            ActivationClaims_Name ac = Import_Account t in
  (result Account_Valid a = None ↔
     ∀ t, t ∈ Account_Imports a → resolved t) ∧
  (∀ pre t post,
     Account_Imports a = pre ++ t :: post →
     (∀ t', t' ∈ pre → resolved t') →
     ¬ resolved t →
     result Account_Valid a =
       Some (fmt_Errorf
         ("import references account " +:+ Quote (Import_Account t) +:+
          " - but it is not an account pk nor an activation token name")) ∧
     trace Account_Valid a =
       map CallDecodeActivationClaims (Account_Act a) ++
       map (λ t, CallIsValidPublicAccountKey (Import_Account t)) (pre ++ [t])).
Proof.
  intros Hdec resolved.
  destruct (decodes_to_exists _ Hdec) as [acs Hacs].
  pose proof (λ t, resolved_iff _ _ t Hacs) as Hres. fold resolved in Hres.
  unfold result, trace, run. rewrite (Account_Valid_decoded acs) by done.
  cbn [self calls app].
  set (tokenMap := Valid_tokenMap acs ∅) in *.
  assert (Hfail : ∀ pre t post,
    Account_Imports a = pre ++ t :: post →
    (∀ t', t' ∈ pre → resolved t') → ¬ resolved t →
    Valid_imports tokenMap (Account_Imports a)
      (State a (map CallDecodeActivationClaims (Account_Act a))) =
    (Some (fmt_Errorf
       ("import references account " +:+ Quote (Import_Account t) +:+
        " - but it is not an account pk nor an activation token name")),
     State a (map CallDecodeActivationClaims (Account_Act a) ++
              map (λ t, CallIsValidPublicAccountKey (Import_Account t))
                  (pre ++ [t])))).
  { intros pre t post -> Hpre Ht. apply Valid_imports_fail.
    - intros t' Ht'. by apply Hres, Hpre.
    - apply not_true_is_false. intros Hb. by apply Ht, Hres. }
  split.
  - split.
    + intros Hnone.
      destruct (first_false
                  (λ t, IsValidPublicAccountKey (Import_Account t)
                        || index tokenMap (Import_Account t))
                  (Account_Imports a))
        as [Hall|(pre & t & post & Heq & Hpre & Ht)].
      * intros t Ht. by apply Hres, Hall.
      * rewrite (Hfail pre t post) in Hnone; [done | done | |].
        -- intros t' Ht'. by apply Hres, Hpre.
        -- intros Hb%Hres. cbn beta in Ht. by rewrite Ht in Hb.
    + intros Hall. rewrite Valid_imports_pass; [done|].
      intros t Ht. by apply Hres, Hall.
  - intros pre t post Heq Hpre Ht. by rewrite (Hfail pre t post).
Qed.

(** ** Revocation *)

(** C2.  [Revocation.Valid] checks, in this order: an empty [JWT] gives the
    missing-JWT error and an empty [Revoked] the missing-revoked-id error,
    both without any call to the decoder; otherwise the token is decoded,
    once, and a decode error is returned as it is; after a successful decode
    an ID different from [Revoked] gives the mismatch error, and an equal
    one gives nil. *)
Theorem Revocation_Valid_order (u : Revocation) :
  (Revocation_JWT u = "" →
     result Revocation_Valid u =
       Some (fmt_Errorf "error validating revocation token, no JWT to revoke") ∧
     trace Revocation_Valid u = []) ∧
  (Revocation_JWT u ≠ "" → Revocation_Revoked u = "" →
     result Revocation_Valid u =
       Some (fmt_Errorf "error validating revocation token, no revoked id specified") ∧
     trace Revocation_Valid u = []) ∧
  (Revocation_JWT u ≠ "" → Revocation_Revoked u ≠ "" →
     trace Revocation_Valid u = [CallDecodeGeneric (Revocation_JWT u)] ∧
     match DecodeGeneric (Revocation_JWT u) with
     | inr err => result Revocation_Valid u = Some err
     | inl theJWT =>
         (GenericClaims_ID theJWT ≠ Revocation_Revoked u →
            result Revocation_Valid u =
              Some (fmt_Errorf "error validating revocation token, id in the child JWT doesn't match revoked id")) ∧
         (GenericClaims_ID theJWT = Revocation_Revoked u →
            result Revocation_Valid u = None)
     end).
Proof.
  unfold result, trace, run, Revocation_Valid. step.
  destruct (String.eqb_spec (Revocation_JWT u) "") as [Hjwt|Hjwt].
  { step. split; [done|]. split; intros; done. }
  destruct (String.eqb_spec (Revocation_Revoked u) "") as [Hrev|Hrev].
  { step. split; [done|]. split; intros; done. }
  step. split; [done|]. split; [done|]. intros _ _.
  destruct (DecodeGeneric (Revocation_JWT u)) as [theJWT|err]; [|by step].
  destruct (String.eqb_spec (GenericClaims_ID theJWT) (Revocation_Revoked u));
    cbn [negb]; step; (split; [done|]); split; intros; done.
Qed.

(** ** What the methods do to their receiver *)

Lemma Activation_Valid_range_state (exports : list Export) :
  ∀ (i : nat) (st : state Activation),
  (Activation_Valid_range i exports st).2 = st.
Proof.
  induction exports as [|t exports IH]; intros i st; [done|].
  cbn [Activation_Valid_range]. step. rewrite on_copy_Export_Valid.
  cbn [fst snd]. destruct (result Export_Valid t); [by step | apply IH].
Qed.

Lemma Activations_range_self (act : list string) :
  ∀ (i : nat) (buf : list ActivationClaims) (st : state Account),
  self (Activations_range i act buf st).2 = self st.
Proof.
  induction act as [|s act IH]; intros i buf st; [done|].
  cbn [Activations_range]. step.
  destruct (DecodeActivationClaims s); [by rewrite IH | by step].
Qed.

Lemma Valid_imports_self (tokenMap : gmap string bool) (imports : list Import) :
  ∀ st : state Account, self (Valid_imports tokenMap imports st).2 = self st.
Proof.
  induction imports as [|t imports IH]; intros st; [done|].
  cbn [Valid_imports]. step.
  destruct (negb _ && negb _); [by step | by rewrite IH].
Qed.

Lemma Activations_self (st : state Account) : self (Activations st).2 = self st.
Proof. rewrite Activations_run. apply Activations_range_self. Qed.

Lemma Account_Valid_self (st : state Account) :
  self (Account_Valid st).2 = self st.
Proof.
  unfold Account_Valid. step. pose proof (Activations_self st) as Hself.
  destruct (Activations st) as [[activations|err] st']; cbn [fst snd] in *;
    step; [|done].
  by rewrite Valid_imports_self.
Qed.

Lemma Revocation_Valid_self (st : state Revocation) :
  self (Revocation_Valid st).2 = self st.
Proof.
  unfold Revocation_Valid. step.
  destruct (String.eqb _ ""); [by step|].
  destruct (String.eqb _ ""); [by step|]. step.
  destruct (DecodeGeneric _); [|by step].
  by destruct (negb _); step.
Qed.

(** For contrast, a method that does assign through its receiver. *)
Lemma AppendActivation_after (act : string) (a : Account) :
  after (AppendActivation act) a =
    {| Account_Imports := Account_Imports a; Account_Act := Account_Act a ++ [act] |}
  ∧ after (AppendActivation act) a ≠ a.
Proof.
  split; [done|]. unfold after, run, AppendActivation. step.
  intros Heq%(f_equal Account_Act)%(f_equal length).
  cbn in Heq. rewrite length_app in Heq. cbn in Heq. lia.
Qed.

(** C10.  Every [Valid] method, and [Account.Activations], leaves the value
    behind its receiver as it found it; in particular the account holds no
    decoded claims after [Account.Valid]. *)
Theorem Valid_leaves_receiver_unchanged :
  (∀ i : Import, after Import_Valid i = i) ∧
  (∀ e : Export, after Export_Valid e = e) ∧
  (∀ a : Activation, after Activation_Valid a = a) ∧
  (∀ a : Account, after Account_Valid a = a) ∧
  (∀ a : Account, after Activations a = a) ∧
  (∀ p : Permissions, after Permissions_Valid p = p) ∧
  (∀ o : Operator, after Operator_Valid o = o) ∧
  (∀ s : Server, after Server_Valid s = s) ∧
  (∀ u : User, after User_Valid u = u) ∧
  (∀ r : Revocation, after Revocation_Valid r = r).
Proof.
  unfold after, run. repeat apply conj.
  - intros i. by rewrite Import_Valid_run.
  - intros e. by rewrite Export_Valid_run.
  - intros a. unfold Activation_Valid. step.
    by rewrite Activation_Valid_range_state.
  - intros a. by rewrite Account_Valid_self.
  - intros a. by rewrite Activations_self.
  - done.
  - done.
  - by intros [].
  - by intros [].
  - intros r. by rewrite Revocation_Valid_self.
Qed.

(** ** StringList: several values, invariants, round trips *)

Lemma Add_app_run (p q : list string) : ∀ st : state StringList,
  Add (p ++ q) st = Add q (Add p st).2.
Proof.
  induction p as [|v p IH]; intros st; [done|].
  cbn [app]. rewrite (Add_cons_run v (p ++ q)), (Add_cons_run v p). apply IH.
Qed.

Lemma Add_after (p : list string) (st : state StringList) :
  ∃ ext : list string,
    (Add p st).2 = State (self st ++ ext) (calls st) ∧
    NoDup ext ∧
    (∀ x, x ∈ ext ↔ x ∈ p ∧ x ≠ "" ∧ x ∉ self st).
Proof.
  destruct (Add_run p st) as (ext & Hrun & Hnd & Hin & _).
  exists ext. by rewrite Hrun.
Qed.

Lemma Remove_single_first_run (v : string) (l1 l2 : list string) (c : list call) :
  v ∉ l1 →
  Remove [v] (State (l1 ++ v :: l2) c) = (tt, State (l1 ++ l2) c).
Proof.
  intros Hv. rewrite Remove_single_run. cbn [self].
  rewrite Remove_range_first by done. cbn [self calls plus].
  rewrite take_app_length, (cons_middle v l1 l2), app_assoc.
  rewrite drop_app_length'; [done|]. rewrite length_app. cbn. lia.
Qed.

Lemma Remove_single_absent_run (v : string) (st : state StringList) :
  v ∉ self st → Remove [v] st = (tt, st).
Proof. intros Hv. by rewrite Remove_single_run, Remove_range_absent. Qed.

Lemma Remove_cons_run (v : string) (p : list string) (st : state StringList) :
  Remove (v :: p) st = Remove p (Remove [v] st).2.
Proof.
  rewrite Remove_single_run. cbn [Remove]. step.
  by destruct (Remove_range v 0 (self st) st).
Qed.

Lemma Remove_app_run (p q : list string) : ∀ st : state StringList,
  Remove (p ++ q) st = Remove q (Remove p st).2.
Proof.
  induction p as [|v p IH]; intros st; [done|].
  cbn [app]. rewrite (Remove_cons_run v (p ++ q)), (Remove_cons_run v p).
  apply IH.
Qed.

Lemma filter_all {A} (P : A → Prop) `{!∀ x, Decision (P x)} (l : list A) :
  (∀ x, x ∈ l → P x) → filter P l = l.
Proof.
  induction l as [|x l IH]; intros Hall; [done|].
  rewrite filter_cons_True by (apply Hall; by left).
  f_equal. apply IH. intros y Hy. apply Hall. by right.
Qed.

(** A single [Remove(v)] either finds nothing or cuts the first [v]. *)
Lemma Remove_single_cases (v : string) (l : list string) (c : list call) :
  ((v ∉ l) ∧ Remove [v] (State l c) = (tt, State l c)) ∨
  (∃ l1 l2, l = l1 ++ v :: l2 ∧ (v ∉ l1) ∧
            Remove [v] (State l c) = (tt, State (l1 ++ l2) c)).
Proof.
  destruct (decide (v ∈ l)) as [(l1 & l2 & -> & Hv)%list_elem_of_split_l|Hv].
  - right. exists l1, l2. by rewrite Remove_single_first_run.
  - left. by rewrite Remove_single_absent_run.
Qed.

(** X1.  [Add] keeps a list free of duplicates free of duplicates, and a
    list without the empty string without it. *)
Theorem Add_keeps_unique_nonempty (p : list string) (l : StringList) :
  (NoDup l → NoDup (after (Add p) l)) ∧
  ("" ∉ l → "" ∉ after (Add p) l).
Proof.
  no_collaborators. unfold after, run.
  destruct (Add_after p (State l [])) as (ext & -> & Hnd & Hin).
  cbn [self] in *. split.
  - intros Hl. apply NoDup_app. split; [done|]. split; [|done].
    intros x Hx Hext. by apply Hin in Hext as (_ & _ & ?).
  - intros Hl [?|Hext]%elem_of_app; [done|]. by apply Hin in Hext as (_ & ? & _).
Qed.

(** On the values: after [Add] the list contains [w] exactly when it
    contained it before or [w] is a non-empty value of [p]. *)
Lemma contains_after_Add_values (p : list string) (w : string) (l : StringList) :
  result (Add p;; contains w) l = true ↔ w ∈ l ∨ (w ∈ p ∧ w ≠ "").
Proof.
  no_collaborators. unfold result, run. rewrite bind_run, contains_run.
  destruct (Add_after p (State l [])) as (ext & -> & _ & Hin).
  cbn [fst self] in *. rewrite contains_range_true, elem_of_app, Hin.
  destruct (decide (w ∈ l)); tauto.
Qed.

(** On the values: from a list without duplicates [Remove] leaves exactly
    the elements that are not among [p], in their order. *)
Lemma Remove_values_unique_filter (p : list string) (l : StringList) :
  NoDup l →
  after (Remove p) l = filter (λ x, x ∉ p) l ∧
  (∀ v, v ∈ p → result (Remove p;; contains v) l = false).
Proof.
  no_collaborators. unfold StringList in *. intros Hnd.
  assert (Hfilter : ∀ c, (Remove p (State l c)).2
                         = State (filter (λ x, x ∉ p) l) c).
  { revert l Hnd. induction p as [|v p IH]; intros l Hnd c.
    - change (Remove [] (State l c)).2 with (State l c). f_equal. symmetry.
      apply filter_all. intros x _. apply not_elem_of_nil.
    - rewrite Remove_cons_run.
      assert (Hcut : (Remove [v] (State l c)).2 = State (filter (λ x, x ≠ v) l) c).
      { destruct (Remove_single_cases v l c)
          as [[Hv Hrun]|(l1 & l2 & Hl & Hv1 & Hrun)];
          apply (f_equal snd) in Hrun; cbn [snd] in Hrun;
          (etrans; [exact Hrun|]); f_equal; symmetry.
        - apply filter_all. by intros x Hx ->.
        - subst l. apply NoDup_app in Hnd as (_ & _ & [Hv2 _]%NoDup_cons).
          rewrite filter_app, filter_cons_False by (intros H; by apply H).
          f_equal; apply filter_all; by intros x Hx ->. }
      rewrite Hcut, IH by by apply NoDup_filter.
      f_equal. rewrite list_filter_filter. apply list_filter_iff.
      intros x. rewrite not_elem_of_cons. tauto. }
  split.
  - unfold after, run. by rewrite Hfilter.
  - intros v Hv. unfold result, run. rewrite bind_run, contains_run, Hfilter.
    cbn [fst self]. apply contains_range_false.
    intros [? _]%list_elem_of_filter. done.
Qed.

(** On the values: [Remove] only deletes, at most one element per value,
    and keeps every element that is not among [p]. *)
Lemma Remove_values_only_deletes (p : list string) (l : StringList) :
  sublist (after (Remove p) l) l ∧
  length l ≤ length (after (Remove p) l) + length p ∧
  filter (λ x, x ∉ p) (after (Remove p) l) = filter (λ x, x ∉ p) l.
Proof.
  no_collaborators. unfold StringList in *.
  assert (Hgen : ∀ (P : list string) (c : list call),
    (∀ v, v ∈ p → v ∈ P) →
    sublist (self (Remove p (State l c)).2) l ∧
    length l ≤ length (self (Remove p (State l c)).2) + length p ∧
    filter (λ x, x ∉ P) (self (Remove p (State l c)).2)
    = filter (λ x, x ∉ P) l).
  { intros P. revert l. induction p as [|v p IH]; intros l c HP.
    - cbn. split; [done|]. split; [lia|done].
    - rewrite Remove_cons_run.
      destruct (Remove_single_cases v l c)
        as [[Hv ->]|(l1 & l2 & -> & Hv1 & ->)]; cbn [snd].
      + destruct (IH l c) as (Hsub & Hlen & Hfil);
          [intros w ?; apply HP; by right|].
        split; [done|]. split; [cbn; lia | done].
      + destruct (IH (l1 ++ l2) c) as (Hsub & Hlen & Hfil);
          [intros w ?; apply HP; by right|].
        split; [|split].
        * etrans; [exact Hsub|]. apply sublist_app; [done|]. by apply sublist_cons.
        * rewrite !length_app in *. cbn. lia.
        * rewrite Hfil, !filter_app. f_equal.
          rewrite filter_cons_False; [done|].
          intros Hv. apply Hv, HP. by left. }
  apply (Hgen p []). done.
Qed.

(** X6.  Adding a value that the list does not hold and removing it again
    gives the list back. *)
Theorem Add_then_Remove (v : string) (l : StringList) :
  v ∉ l → after (Add [v];; Remove [v]) l = l.
Proof.
  no_collaborators. intros Hv. unfold after, run.
  rewrite bind_run, Add_single_run. cbn [snd self calls].
  apply contains_range_false in Hv as Hc. rewrite Hc. cbn [negb andb].
  destruct (negb (String.eqb v "")).
  - rewrite (Remove_single_first_run v l []) by done. cbn. by rewrite app_nil_r.
  - by rewrite Remove_single_absent_run.
Qed.

(** ** Account: the whole outcome *)

(** The tokens of a list all decode, or there is a first one that does
    not. *)
Lemma decode_cases (act : list string) :
  (∀ s, s ∈ act → ∃ ac, DecodeActivationClaims s = inl ac) ∨
  (∃ pre s post err, act = pre ++ s :: post ∧
     (∀ s', s' ∈ pre → ∃ ac, DecodeActivationClaims s' = inl ac) ∧
     DecodeActivationClaims s = inr err).
Proof.
  destruct (first_false
              (λ s, match DecodeActivationClaims s with
                    | inl _ => true | inr _ => false end) act)
    as [Hall|(pre & s & post & -> & Hpre & Hs)].
  - left. intros s Hs. specialize (Hall s Hs).
    destruct (DecodeActivationClaims s) as [ac|]; [by exists ac | done].
  - right. destruct (DecodeActivationClaims s) as [|err] eqn:Hd; [done|].
    exists pre, s, post, err. split; [done|]. split; [|done].
    intros s' Hs'. specialize (Hpre s' Hs').
    destruct (DecodeActivationClaims s') as [ac|]; [by exists ac | done].
Qed.

Lemma Account_Valid_nil_run (a : Account) (c : list call) :
  (Account_Valid (State a c)).1 = None ↔
  (∀ s, s ∈ Account_Act a → ∃ ac, DecodeActivationClaims s = inl ac) ∧
  (∀ t, t ∈ Account_Imports a →
     IsValidPublicAccountKey (Import_Account t) = true ∨
     ∃ s ac, s ∈ Account_Act a ∧ DecodeActivationClaims s = inl ac ∧
             ActivationClaims_Name ac = Import_Account t).
Proof.
  destruct (decode_cases (Account_Act a))
    as [Hdec|(pre & s & post & err & Hact & Hpre & Hs)].
  - destruct (decodes_to_exists _ Hdec) as [acs Hacs].
    rewrite (Account_Valid_decoded acs) by done. cbn [self calls].
    destruct (first_false
                (λ t, IsValidPublicAccountKey (Import_Account t)
                      || index (Valid_tokenMap acs ∅) (Import_Account t))
                (Account_Imports a))
      as [Hall|(ipre & t & ipost & Heq & Hipre & Ht)].
    + rewrite Valid_imports_pass by done. split; [|done]. intros _.
      split; [done|]. intros t Ht. by apply (resolved_iff _ _ t Hacs), Hall.
    + rewrite Heq, Valid_imports_fail by done. split; [done|].
      intros [_ Hres]. specialize (Hres t).
      rewrite <- (resolved_iff _ _ t Hacs) in Hres. cbn beta in Ht.
      rewrite Ht in Hres. discriminate Hres. rewrite elem_of_app.
      right. by left.
  - destruct (decodes_to_exists _ Hpre) as [acs Hacs].
    rewrite (Account_Valid_undecoded pre acs s post err) by done.
    split; [done|]. intros [Hdec _]. destruct (Hdec s) as [ac Hac].
    + rewrite Hact, elem_of_app. right. by left.
    + congruence.
Qed.

(** X8.  [Activations] returns a list of claims exactly when the tokens of
    [a.Act] decode, one by one and in order, to those claims; the decoder
    has then been called once on each token, in order. *)
Theorem Activations_decodes_in_order (a : Account) (acs : list ActivationClaims) :
  (result Activations a = inl acs ↔
     Forall2 (λ s ac, DecodeActivationClaims s = inl ac) (Account_Act a) acs) ∧
  (result Activations a = inl acs →
     trace Activations a = map CallDecodeActivationClaims (Account_Act a)).
Proof.
  unfold result, trace, run. rewrite Activations_run. cbn [self].
  destruct (decode_cases (Account_Act a))
    as [Hdec|(pre & s & post & err & Hact & Hpre & Hs)].
  - destruct (decodes_to_exists _ Hdec) as [acs' Hacs'].
    rewrite (Activations_range_pass _ acs') by done. cbn [fst snd calls app].
    split; [|done]. split.
    + by intros [= <-].
    + intros Hacs. f_equal. clear Hdec. revert acs Hacs.
      induction Hacs' as [|s ac act acs' Hs _ IH]; intros acs Hacs.
      * by apply Forall2_nil_inv_l in Hacs as ->.
      * apply Forall2_cons_inv_l in Hacs as (ac0 & acs0 & Hs0 & Hacs & ->).
        f_equal; [congruence | by apply IH].
  - destruct (decodes_to_exists _ Hpre) as [acs' Hacs'].
    rewrite Hact, (Activations_range_fail pre acs' s post err) by done.
    cbn [fst snd]. split; [|done]. split; [done|].
    intros (acs1 & acs2 & _ & Hs2 & _)%Forall2_app_inv_l.
    apply Forall2_cons_inv_l in Hs2 as (ac & _ & Hac & _). congruence.
Qed.

(** X9.  [Account.Valid] returns nil exactly when every token of [a.Act]
    decodes and the account of every import is a valid public account key
    or the name of a decoded activation. *)
Theorem Account_Valid_nil_iff (a : Account) :
  result Account_Valid a = None ↔
  (∀ s, s ∈ Account_Act a → ∃ ac, DecodeActivationClaims s = inl ac) ∧
  (∀ t, t ∈ Account_Imports a →
     IsValidPublicAccountKey (Import_Account t) = true ∨
     ∃ s ac, s ∈ Account_Act a ∧ DecodeActivationClaims s = inl ac ∧
             ActivationClaims_Name ac = Import_Account t).
Proof. apply Account_Valid_nil_run. Qed.

Lemma Activations_range_any_receiver (act : list string) :
  ∀ (i : nat) (buf : list ActivationClaims) (a a' : Account) (c : list call),
  (Activations_range i act buf (State a c)).1
  = (Activations_range i act buf (State a' c)).1 ∧
  calls (Activations_range i act buf (State a c)).2
  = calls (Activations_range i act buf (State a' c)).2.
Proof.
  induction act as [|s act IH]; intros i buf a a' c; [done|].
  cbn [Activations_range]. step.
  destruct (DecodeActivationClaims s); [apply IH | by step].
Qed.

Lemma Valid_imports_accounts (tokenMap : gmap string bool) (imports : list Import) :
  ∀ (imports' : list Import) (a a' : Account) (c : list call),
  map Import_Account imports' = map Import_Account imports →
  (Valid_imports tokenMap imports' (State a' c)).1
  = (Valid_imports tokenMap imports (State a c)).1 ∧
  calls (Valid_imports tokenMap imports' (State a' c)).2
  = calls (Valid_imports tokenMap imports (State a c)).2.
Proof.
  induction imports as [|t imports IH]; intros [|t' imports'] a a' c Hacc;
    try discriminate; [done|].
  cbn in Hacc. injection Hacc as Ht Hacc.
  cbn [Valid_imports]. step. rewrite Ht.
  destruct (negb _ && negb _); [by step | by apply IH].
Qed.

(** X10.  [Account.Valid] looks at nothing of an import but its account:
    two accounts with the same tokens whose imports have, in order, the
    same accounts get the same result after the same collaborator calls,
    whatever the types, subjects, to and prefix fields are.  In particular
    [Import.Valid] is not applied to the imports. *)
Theorem Account_Valid_only_import_accounts (a a' : Account) :
  Account_Act a' = Account_Act a →
  map Import_Account (Account_Imports a') = map Import_Account (Account_Imports a) →
  result Account_Valid a' = result Account_Valid a ∧
  trace Account_Valid a' = trace Account_Valid a.
Proof.
  intros Hact Himp. unfold result, trace, run, Account_Valid. rewrite !bind_run.
  rewrite !Activations_run. cbn [self]. rewrite Hact.
  destruct (Activations_range_any_receiver (Account_Act a) 0 [] a' a [])
    as [Hres Hcalls].
  pose proof (Activations_range_self (Account_Act a) 0 [] (State a' [])) as Hs'.
  pose proof (Activations_range_self (Account_Act a) 0 [] (State a [])) as Hs.
  destruct (Activations_range 0 (Account_Act a) [] (State a' []))
    as [r' [b' c']],
    (Activations_range 0 (Account_Act a) [] (State a []))
    as [r [b c0]]; cbn in Hres, Hcalls, Hs', Hs; subst.
  cbn [fst snd]. destruct r as [acs|err]; [|by step].
  step. by apply Valid_imports_accounts.
Qed.

(** X11.  [AppendActivation] puts the token at the end of [a.Act] and
    touches nothing else.  Appending a token that decodes keeps a valid
    account valid; appending one that does not decode to an account whose
    tokens all decode makes [Valid] fail with the decode error at the index
    of the new token, the old length of [a.Act]. *)
Theorem AppendActivation_then_Valid (a : Account) (act : string) :
  after (AppendActivation act) a =
    {| Account_Imports := Account_Imports a;
       Account_Act := Account_Act a ++ [act] |} ∧
  trace (AppendActivation act) a = [] ∧
  (∀ ac, result Account_Valid a = None →
         DecodeActivationClaims act = inl ac →
         result (AppendActivation act;; Account_Valid) a = None) ∧
  (∀ err, (∀ s, s ∈ Account_Act a → ∃ ac, DecodeActivationClaims s = inl ac) →
          DecodeActivationClaims act = inr err →
          result (AppendActivation act;; Account_Valid) a =
            Some (fmt_Errorf ("error decoding activation ["
                              +:+ pretty (length (Account_Act a))
                              +:+ "]: " +:+ Error err))).
Proof.
  split; [done|]. split; [done|].
  assert (Hrun : result (AppendActivation act;; Account_Valid) a =
    (Account_Valid (State {| Account_Imports := Account_Imports a;
                             Account_Act := Account_Act a ++ [act] |} [])).1).
  { unfold result, run. by rewrite bind_run. }
  rewrite Hrun. split.
  - intros ac [Hdec Hres]%Account_Valid_nil_run Hact.
    apply Account_Valid_nil_run. cbn [Account_Act Account_Imports]. split.
    + intros s [?| ->%list_elem_of_singleton]%elem_of_app;
        [by apply Hdec | by exists ac].
    + intros t Ht. destruct (Hres t Ht) as [?|(s & ac' & ? & ? & ?)]; [by left|].
      right. exists s, ac'. split; [|done]. apply elem_of_app. by left.
  - intros err Hdec Hact. destruct (decodes_to_exists _ Hdec) as [acs Hacs].
    by rewrite (Account_Valid_undecoded (Account_Act a) acs act [] err).
Qed.

(** X12.  The collaborator calls of [Account.Valid] are, for every account,
    one of three sequences.  If every token decodes and every import is
    resolved: one decoder call per token, in order, then one key check per
    import, in order.  If every token decodes and some import is the first
    that is not resolved: one decoder call per token, then the key checks up
    to and including that import.  If some token is the first that does not
    decode: the decoder calls up to and including that token, and nothing
    else.  [DecodeGeneric] is never called. *)
Theorem Account_Valid_calls (a : Account) :
  let decoded (s : string) : Prop :=
    ∃ ac, DecodeActivationClaims s = inl ac in
  let resolved (t : Import) : Prop :=
    IsValidPublicAccountKey (Import_Account t) = true ∨
    ∃ s ac, s ∈ Account_Act a ∧ DecodeActivationClaims s = inl ac ∧
            ActivationClaims_Name ac = Import_Account t in
  ((∀ s, s ∈ Account_Act a → decoded s) ∧
   (∀ t, t ∈ Account_Imports a → resolved t) ∧
   trace Account_Valid a =
     map CallDecodeActivationClaims (Account_Act a) ++
     map (λ t, CallIsValidPublicAccountKey (Import_Account t))
         (Account_Imports a)) ∨
  ((∀ s, s ∈ Account_Act a → decoded s) ∧
   ∃ pre t post,
     Account_Imports a = pre ++ t :: post ∧
     (∀ t', t' ∈ pre → resolved t') ∧ ¬ resolved t ∧
     trace Account_Valid a =
       map CallDecodeActivationClaims (Account_Act a) ++
       map (λ t, CallIsValidPublicAccountKey (Import_Account t)) (pre ++ [t])) ∨
  (∃ pre s post err,
     Account_Act a = pre ++ s :: post ∧
     (∀ s', s' ∈ pre → decoded s') ∧
     DecodeActivationClaims s = inr err ∧
     trace Account_Valid a = map CallDecodeActivationClaims (pre ++ [s])).
Proof.
  intros decoded resolved. unfold trace, run.
  destruct (decode_cases (Account_Act a))
    as [Hdec|(pre & s & post & err & Hact & Hpre & Hs)].
  - destruct (decodes_to_exists _ Hdec) as [acs Hacs].
    pose proof (λ t, resolved_iff _ _ t Hacs) as Hres. fold resolved in Hres.
    rewrite (Account_Valid_decoded acs) by done. cbn [self calls app].
    destruct (first_false
                (λ t, IsValidPublicAccountKey (Import_Account t)
                      || index (Valid_tokenMap acs ∅) (Import_Account t))
                (Account_Imports a))
      as [Hall|(ipre & t & ipost & Heq & Hipre & Ht)].
    + left. split; [done|]. split.
      * intros t Ht. by apply Hres, Hall.
      * by rewrite Valid_imports_pass.
    + right. left. split; [done|]. exists ipre, t, ipost. split; [done|].
      split; [|split].
      * intros t' Ht'. by apply Hres, Hipre.
      * intros Hb%Hres. cbn beta in Ht. by rewrite Ht in Hb.
      * by rewrite Heq, Valid_imports_fail.
  - right. right. destruct (decodes_to_exists _ Hpre) as [acs Hacs].
    exists pre, s, post, err. split; [done|]. split; [done|]. split; [done|].
    by rewrite (Account_Valid_undecoded pre acs s post err).
Qed.

(** ** Activation and Revocation: the whole outcome *)

Lemma Activation_Valid_range_any_state (exports : list Export) :
  ∀ (i : nat) (st st' : state Activation),
  (Activation_Valid_range i exports st).1
  = (Activation_Valid_range i exports st').1.
Proof.
  induction exports as [|t exports IH]; intros i st st'; [done|].
  cbn [Activation_Valid_range]. step. rewrite !on_copy_Export_Valid.
  cbn [fst snd]. destruct (result Export_Valid t); [by step | apply IH].
Qed.

Lemma Activation_Valid_nil_run (a : Activation) (c : list call) :
  (Activation_Valid (State a c)).1 = None ↔
  ∀ t, t ∈ Activation_Exports a → result Export_Valid t = None.
Proof.
  unfold Activation_Valid. step. split.
  - intros Hnone.
    destruct (first_invalid_export (Activation_Exports a))
      as [Hall|(pre & t & post & err & Heq & Hpre & Ht)]; [done|].
    by rewrite Heq, (Activation_Valid_range_fail pre t post err) in Hnone.
  - intros Hall. by rewrite Activation_Valid_range_pass.
Qed.

(** X13.  [Activation.Valid] calls no collaborator and looks at nothing but
    the exports: the embedded limits do not matter; and an activation whose
    exports are [l1] followed by [l2] is valid exactly when the activations
    with exports [l1] and with exports [l2] both are. *)
Theorem Activation_Valid_only_exports (a : Activation) :
  trace Activation_Valid a = [] ∧
  (∀ limits operatorLimits,
     result Activation_Valid
       {| Activation_Exports := Activation_Exports a;
          Activation_Limits := limits;
          Activation_OperatorLimits := operatorLimits |}
     = result Activation_Valid a) ∧
  (∀ l1 l2,
     Activation_Exports a = l1 ++ l2 →
     (result Activation_Valid a = None ↔
        result Activation_Valid
          {| Activation_Exports := l1;
             Activation_Limits := Activation_Limits a;
             Activation_OperatorLimits := Activation_OperatorLimits a |} = None ∧
        result Activation_Valid
          {| Activation_Exports := l2;
             Activation_Limits := Activation_Limits a;
             Activation_OperatorLimits := Activation_OperatorLimits a |} = None)).
Proof.
  split; [|split].
  - unfold trace, run, Activation_Valid. step.
    by rewrite Activation_Valid_range_state.
  - intros limits operatorLimits. unfold result, run, Activation_Valid. step.
    apply Activation_Valid_range_any_state.
  - intros l1 l2 Heq. unfold result, run. rewrite !Activation_Valid_nil_run.
    cbn [Activation_Exports]. rewrite Heq. split.
    + intros Hall. split; intros t Ht; apply Hall, elem_of_app; [by left | by right].
    + intros [H1 H2] t [?|?]%elem_of_app; [by apply H1 | by apply H2].
Qed.

(** X14.  [Revocation.Valid] returns nil exactly when [JWT] and [Revoked]
    are non-empty and [JWT] decodes to claims whose ID is [Revoked]; the
    reason plays no part; and the decoder is called at most once, on
    [JWT]. *)
Theorem Revocation_Valid_nil_iff (u : Revocation) :
  (result Revocation_Valid u = None ↔
     Revocation_JWT u ≠ "" ∧ Revocation_Revoked u ≠ "" ∧
     ∃ theJWT, DecodeGeneric (Revocation_JWT u) = inl theJWT ∧
               GenericClaims_ID theJWT = Revocation_Revoked u) ∧
  (∀ reason,
     result Revocation_Valid
       {| Revocation_Revoked := Revocation_Revoked u;
          Revocation_JWT := Revocation_JWT u;
          Revocation_Reason := reason |}
     = result Revocation_Valid u) ∧
  (trace Revocation_Valid u = [] ∨
   trace Revocation_Valid u = [CallDecodeGeneric (Revocation_JWT u)]).
Proof.
  split; [|split].
  - unfold result, run, Revocation_Valid. step.
    destruct (String.eqb_spec (Revocation_JWT u) "") as [Hjwt|Hjwt].
    { step. split; [done | by intros [? _]]. }
    destruct (String.eqb_spec (Revocation_Revoked u) "") as [Hrev|Hrev].
    { step. split; [done | by intros (_ & ? & _)]. }
    step. destruct (DecodeGeneric (Revocation_JWT u)) as [theJWT|err].
    + destruct (String.eqb_spec (GenericClaims_ID theJWT) (Revocation_Revoked u))
        as [Hid|Hid]; cbn [negb]; step.
      * split; [|done]. intros _. split; [done|]. split; [done|]. by exists theJWT.
      * split; [done|]. intros (_ & _ & c & [= <-] & ?). done.
    + step. split; [done|]. by intros (_ & _ & c & ? & _).
  - intros reason. unfold result, run, Revocation_Valid. step.
    cbn [Revocation_JWT Revocation_Revoked].
    destruct (String.eqb (Revocation_JWT u) ""); [done|].
    destruct (String.eqb (Revocation_Revoked u) ""); [done|]. step.
    destruct (DecodeGeneric (Revocation_JWT u)); [|done].
    by destruct (negb _).
  - unfold trace, run, Revocation_Valid. step.
    destruct (String.eqb (Revocation_JWT u) ""); [by left; step|].
    destruct (String.eqb (Revocation_Revoked u) ""); [by left; step|].
    right. step. destruct (DecodeGeneric (Revocation_JWT u)); [|by step].
    by destruct (negb _); step.
Qed.

End Claims.

(** ** The payload of a decoded activation is never looked at *)

(** Two decoders that fail on the same tokens with the same errors and give
    claims of the same name on the others. *)
Lemma Activations_range_names
    (D D' : string → ActivationClaims + error) :
  (∀ s, sum_map ActivationClaims_Name id (D' s)
        = sum_map ActivationClaims_Name id (D s)) →
  ∀ (act : list string) (i : nat) (buf buf' : list ActivationClaims)
    (st : state Account),
  map ActivationClaims_Name buf' = map ActivationClaims_Name buf →
  (Activations_range D' i act buf' st).2 = (Activations_range D i act buf st).2 ∧
  sum_map (map ActivationClaims_Name) id (Activations_range D' i act buf' st).1
  = sum_map (map ActivationClaims_Name) id (Activations_range D i act buf st).1.
Proof.
  intros Hsame act. induction act as [|s act IH]; intros i buf buf' st Hbuf.
  - cbn. by rewrite Hbuf.
  - cbn [Activations_range]. rewrite !bind_run. cbn [extern fst snd].
    specialize (Hsame s).
    destruct (D' s) as [ac'|err'], (D s) as [ac|err]; cbn in Hsame;
      try discriminate.
    + apply IH. rewrite !map_app. cbn. congruence.
    + cbn. split; [done|]. congruence.
Qed.

Lemma Valid_tokenMap_names (acs acs' : list ActivationClaims) :
  map ActivationClaims_Name acs' = map ActivationClaims_Name acs →
  ∀ m : gmap string bool, Valid_tokenMap acs' m = Valid_tokenMap acs m.
Proof.
  revert acs'. induction acs as [|t acs IH]; intros [|t' acs'] Hnames m;
    try discriminate; [done|].
  cbn in *. injection Hnames as -> Hnames. by apply IH.
Qed.

(** C9.  [Account.Valid] does not validate the activations it decodes: its
    whole outcome stays the same when the decoder is replaced by one that
    gives claims of the same names (and the same errors) with any other
    payload; and when every token decodes and every import is resolved it
    returns nil although some decoded activation is itself invalid. *)
Theorem Account_Valid_never_validates_activations
    (Quote : string → string)
    (DecodeActivationClaims : string → ActivationClaims + error)
    (IsValidPublicAccountKey : string → bool) (a : Account) :
  (∀ D' : string → ActivationClaims + error,
     (∀ s, sum_map ActivationClaims_Name id (D' s)
           = sum_map ActivationClaims_Name id (DecodeActivationClaims s)) →
     run (Account_Valid Quote D' IsValidPublicAccountKey) a
     = run (Account_Valid Quote DecodeActivationClaims IsValidPublicAccountKey) a) ∧
  ((∀ s, s ∈ Account_Act a → ∃ ac, DecodeActivationClaims s = inl ac) →
   (∀ t, t ∈ Account_Imports a →
      IsValidPublicAccountKey (Import_Account t) = true ∨
      ∃ s ac, s ∈ Account_Act a ∧ DecodeActivationClaims s = inl ac ∧
              ActivationClaims_Name ac = Import_Account t) →
   (∃ s ac, s ∈ Account_Act a ∧ DecodeActivationClaims s = inl ac ∧
            result (Activation_Valid Quote) (ActivationClaims_Activation ac) ≠ None) →
   result (Account_Valid Quote DecodeActivationClaims IsValidPublicAccountKey) a
   = None).
Proof.
  split.
  - intros D' Hsame. unfold run, Account_Valid. rewrite !bind_run.
    unfold Activations. rewrite !bind_run. cbn [load fst snd self].
    destruct (Activations_range_names _ _ Hsame (Account_Act a) 0 [] [] (State a []))
      as [Hst Hres]; [done|].
    destruct (Activations_range D' 0 (Account_Act a) [] (State a []))
      as [[acs'|err'] st'],
      (Activations_range DecodeActivationClaims 0 (Account_Act a) [] (State a []))
      as [[acs|err] st0]; cbn in Hst, Hres; try discriminate; subst st'.
    + cbn [fst snd]. rewrite !bind_run. cbn [load fst snd].
      rewrite (Valid_tokenMap_names acs acs'); [done | congruence].
    + cbn [fst snd]. congruence.
  - intros Hdec Hres _. unfold result.
    by rewrite (Account_Valid_pass Quote DecodeActivationClaims
                  IsValidPublicAccountKey a Hdec Hres).
Qed.

(** ** StringList in memory: the two views of a call *)

Section StringListInMemory.

(** The growth policy of [append]; nothing below depends on it. *)
Variable spare : nat → nat → nat.


Lemma lookup_elements (h : list string) (s : slice) (i : nat) :
  elements h s !! i = if decide (i < len s) then h !! (ptr s + i) else None.
Proof.
  unfold elements. rewrite lookup_take. case_decide; [|done]. apply lookup_drop.
Qed.

Lemma length_elements (h : list string) (s : slice) :
  within h s → length (elements h s) = len s.
Proof.
  unfold within, elements. intros H. rewrite length_take, length_drop. lia.
Qed.

Lemma valid_within (h : list string) (s : slice) : valid h s → within h s.
Proof. unfold valid, within. lia. Qed.

(** The elements of a slice are those of another when their cells agree. *)
Lemma elements_ext (h h' : list string) (s s' : slice) :
  len s' = len s →
  (∀ i, i < len s → h' !! (ptr s' + i) = h !! (ptr s + i)) →
  elements h' s' = elements h s.
Proof.
  intros Hlen Hcells. apply list_eq. intros i. rewrite !lookup_elements, Hlen.
  case_decide; [by apply Hcells | done].
Qed.

Lemma at_index_elements (h : list string) (p : slice) (i : nat) :
  within h p → i < len p →
  drop i (elements h p) = at_index h p i :: drop (S i) (elements h p).
Proof.
  intros Hp Hi. apply drop_S. rewrite lookup_elements.
  case_decide; [|lia]. unfold at_index.
  destruct (h !! (ptr p + i)) eqn:Hl; [done|].
  apply lookup_ge_None in Hl. unfold within in Hp. lia.
Qed.

Lemma append_one_spec (h : list string) (u : slice) (v : string) :
  valid h u →
  elems (append_one spare h u v) = elements h u ++ [v] ∧
  valid (cells (append_one spare h u v)) (header (append_one spare h u v)) ∧
  (∀ q, within h q → apart q u →
        within (cells (append_one spare h u v)) q ∧
        apart q (header (append_one spare h u v)) ∧
        elements (cells (append_one spare h u v)) q = elements h q).
Proof.
  intros [Hlen Hcap]. unfold append_one, elems.
  pose proof (length_elements h u) as Hle. unfold within in Hle.
  case_decide as Hroom; cbn [cells header].
  - split; [|split].
    + apply list_eq. intros i. rewrite lookup_elements. cbn [len ptr].
      destruct (decide (i < len u)) as [Hi|Hi].
      * rewrite lookup_app_l by (rewrite Hle; lia).
        rewrite lookup_elements. rewrite decide_True by lia.
        rewrite decide_True by lia. apply list_lookup_insert_ne. lia.
      * rewrite lookup_app_r by (rewrite Hle; lia). rewrite Hle by lia.
        destruct (decide (i = len u)) as [->|Hne].
        -- rewrite decide_True by lia. rewrite Nat.sub_diag.
           apply list_lookup_insert_eq. lia.
        -- rewrite decide_False by lia.
           destruct (i - len u) as [|k] eqn:Hk; [lia|done].
    + unfold valid. cbn. rewrite length_insert. lia.
    + intros q Hq Hapart. unfold within, apart in *. cbn [ptr len cap].
      rewrite length_insert. split; [done|]. split; [done|].
      apply elements_ext; [done|]. intros i Hi.
      apply list_lookup_insert_ne. lia.
  - assert (len u = cap u) as Hfull by lia. split; [|split].
    + apply list_eq. intros i. rewrite lookup_elements. cbn [len ptr].
      case_decide as Hi.
      * rewrite lookup_app_r by lia.
        replace (length h + i - length h) with i by lia.
        cbn [len] in Hi. destruct (decide (i < len u)) as [Hlt|Hge].
        -- by rewrite !lookup_app_l by (rewrite Hle; lia).
        -- rewrite !lookup_app_r by (rewrite Hle; lia). rewrite Hle by lia.
           by replace (i - len u) with 0 by lia.
      * symmetry. apply lookup_ge_None. rewrite length_app, Hle by lia. cbn. lia.
    + unfold valid. cbn. rewrite !length_app, Hle by lia. cbn.
      rewrite length_replicate. lia.
    + intros q Hq Hapart. unfold within, apart in *. cbn [ptr len cap].
      rewrite !length_app. split; [lia|]. split; [lia|].
      apply elements_ext; [done|]. intros i Hi. apply lookup_app_l. lia.
Qed.


Ltac run_step :=
  repeat first
    [ rewrite bind_run
    | rewrite ret_run
    | progress cbn [load store extern on_copy promoted fst snd self calls] ].

Lemma Add_after_any_trace (p : list string) :
  ∀ (l : StringList) (c : list call),
  (Add p (State l c)).2 = State (after (Add p) l) c.
Proof.
  unfold after, run. induction p as [|v p IH]; intros l c; [done|].
  rewrite (Add_cons_run v p (State l c)), (Add_cons_run v p (State l [])).
  cbn [self calls]. apply IH.
Qed.

(** One iteration of the loop of [Add] on a slice. *)
Lemma Add_slice_range_S (p : slice) (i n : nat) (m : memory) (c : list call) :
  Add_slice_range spare p i (S n) (State m c) =
  Add_slice_range spare p (S i) n
    (State (if negb (contains_range (at_index (cells m) p i) (elems m))
               && negb (String.eqb (at_index (cells m) p i) "")
            then append_one spare (cells m) (header m) (at_index (cells m) p i)
            else m) c).
Proof.
  cbn [Add_slice_range]. unfold contains_slice. run_step.
  destruct (negb _ && negb _); run_step; [done|]. by destruct m.
Qed.

(** Whatever the argument slice shares with the receiver, [Add] keeps the
    elements and appends values that are non-empty and new, each once. *)
Lemma Add_slice_range_appends (p : slice) (n : nat) :
  ∀ (i : nat) (m : memory) (c : list call),
  valid (cells m) (header m) →
  ∃ (m' : memory) (ext : list string),
    (Add_slice_range spare p i n (State m c)).2 = State m' c ∧
    valid (cells m') (header m') ∧
    elems m' = elems m ++ ext ∧
    NoDup ext ∧
    (∀ x, x ∈ ext → x ≠ "" ∧ x ∉ elems m).
Proof.
  induction n as [|n IH]; intros i m c Hvalid.
  - exists m, []. split; [done|]. split; [done|]. split; [by rewrite app_nil_r|].
    split; [constructor|]. by intros x ?%elem_of_nil.
  - rewrite Add_slice_range_S. set (v := at_index (cells m) p i).
    destruct (contains_range v (elems m)) eqn:Hc; cbn [negb andb];
      [by apply IH|].
    destruct (String.eqb_spec v "") as [Hv|Hv]; cbn [negb]; [by apply IH|].
    apply contains_range_false in Hc.
    destruct (append_one_spec (cells m) (header m) v Hvalid)
      as (Helems & Hvalid' & _).
    destruct (IH (S i) (append_one spare (cells m) (header m) v) c Hvalid')
      as (m' & ext & Hrun & Hv' & Hext & Hnd & Hnew).
    exists m', (v :: ext). split; [done|]. split; [done|].
    split; [by rewrite Hext, Helems, <- app_assoc|].
    split.
    + constructor; [|done]. intros Hin. apply Hnew in Hin as [_ Hin].
      apply Hin. rewrite Helems, elem_of_app. right. by left.
    + intros x [->|Hin]%elem_of_cons; [done|].
      apply Hnew in Hin as [? Hin]. split; [done|]. intros Hx. apply Hin.
      rewrite Helems, elem_of_app. by left.
Qed.

(** When the argument slice shares no cell with the receiver's array, the
    loop reads the values the slice had at the call. *)
Lemma Add_slice_range_values (p : slice) (n : nat) :
  ∀ (i : nat) (h : list string) (u : slice) (c : list call),
  valid h u → within h p → apart p u → i + n = len p →
  ∃ (h' : list string) (u' : slice),
    (Add_slice_range spare p i n (State (Memory h u) c)).2
      = State (Memory h' u') c ∧
    valid h' u' ∧
    elements h' u' = after (Add (drop i (elements h p))) (elements h u) ∧
    (∀ q, within h q → apart q u →
          within h' q ∧ apart q u' ∧ elements h' q = elements h q).
Proof.
  induction n as [|n IH]; intros i h u c Hvalid Hp Hapart Hi.
  - exists h, u. split; [done|]. split; [done|]. split; [|done].
    rewrite drop_ge; [done|]. rewrite length_elements by done. lia.
  - rewrite Add_slice_range_S. cbn [cells header]. unfold elems. cbn [cells header].
    rewrite (at_index_elements h p i) by (done || lia).
    set (v := at_index h p i).
    unfold after, run. rewrite Add_cons_run. cbn [self calls].
    fold (run (Add (drop (S i) (elements h p)))). 
    destruct (negb (contains_range v (elements h u)) && negb (String.eqb v "")).
    + destruct (append_one_spec h u v Hvalid) as (Helems & Hvalid' & Hframe).
      destruct (Hframe p Hp Hapart) as (Hp' & Hapart' & Hpe).
      unfold elems in Helems.
      destruct (append_one spare h u v) as [h1 u1] eqn:Happ. cbn [cells header] in *.
      destruct (IH (S i) h1 u1 c Hvalid' Hp' Hapart' ltac:(lia))
        as (h' & u' & Hrun & Hv' & Hres & Hfr).
      exists h', u'. split; [done|]. split; [done|]. split.
      * rewrite Hres, Hpe, Helems. unfold after, run.
        by rewrite (Add_after_any_trace _ _ []).
      * intros q Hq Hqa. destruct (Hframe q Hq Hqa) as (Hq1 & Hqa1 & Hqe1).
        destruct (Hfr q Hq1 Hqa1) as (? & ? & Hqe2).
        split; [done|]. split; [done|]. by rewrite Hqe2.
    + destruct (IH (S i) h u c Hvalid Hp Hapart ltac:(lia))
        as (h' & u' & Hrun & Hv' & Hres & Hfr).
      exists h', u'. split; [done|]. split; [done|]. split; [|done].
      rewrite Hres. unfold after, run. by rewrite (Add_after_any_trace _ _ []).
Qed.


(** *** Remove *)

Lemma lookup_cut (h : list string) (a : slice) (i k : nat) :
  valid h a → i < len a →
  cut h a i !! k =
  if decide (k < ptr a + i) then h !! k
  else if decide (k < ptr a + len a - 1) then h !! (S k)
  else h !! k.
Proof.
  intros [Hlen Hcap] Hi. unfold cut.
  assert (length (take (ptr a + i) h) = ptr a + i) as HA
    by (rewrite length_take; lia).
  assert (length (take (len a - S i) (drop (ptr a + S i) h)) = len a - S i) as HB
    by (rewrite length_take, length_drop; lia).
  case_decide as Hk1.
  - rewrite lookup_app_l by lia. rewrite lookup_take. by rewrite decide_True by lia.
  - rewrite lookup_app_r by lia. rewrite HA. case_decide as Hk2.
    + rewrite lookup_app_l by lia. rewrite lookup_take.
      rewrite decide_True by lia. rewrite lookup_drop. f_equal. lia.
    + rewrite lookup_app_r by lia. rewrite HB, lookup_drop. f_equal. lia.
Qed.

Lemma cut_spec (h : list string) (a : slice) (i : nat) :
  valid h a → i < len a →
  length (cut h a i) = length h ∧
  elements (cut h a i) (Slice (ptr a) (len a - 1) (cap a))
    = take i (elements h a) ++ drop (S i) (elements h a) ∧
  (∀ q, within h q → apart q a → elements (cut h a i) q = elements h q).
Proof.
  intros Hvalid Hi. pose proof Hvalid as [Hlen Hcap]. split; [|split].
  - unfold cut. rewrite !length_app, !length_take, !length_drop. lia.
  - apply list_eq. intros j. rewrite lookup_elements. cbn [len ptr].
    assert (length (take i (elements h a)) = i) as Hti.
    { rewrite length_take, length_elements by by apply valid_within. lia. }
    case_decide as Hj.
    + rewrite lookup_cut by done. destruct (decide (j < i)) as [Hji|Hji].
      * rewrite decide_True by lia. rewrite lookup_app_l by lia.
        rewrite lookup_take, decide_True by lia.
        rewrite lookup_elements. by rewrite decide_True by lia.
      * rewrite decide_False by lia. rewrite decide_True by lia.
        rewrite lookup_app_r by lia. rewrite Hti, lookup_drop, lookup_elements.
        rewrite decide_True by lia. f_equal. lia.
    + symmetry. apply lookup_ge_None.
      rewrite length_app, Hti, length_drop, length_elements
        by by apply valid_within. lia.
  - intros q Hq Hapart. apply elements_ext; [done|]. intros j Hj.
    rewrite lookup_cut by done. unfold within, apart in *.
    destruct Hapart.
    + by rewrite decide_True by lia.
    + rewrite decide_False by lia. by rewrite decide_False by lia.
Qed.

Lemma Remove_range_self (v : string) (rest : list string) :
  ∀ (i : nat) (l : StringList) (c : list call),
  (Remove_range v i rest (State l c)).2
  = State (self (Remove_range v i rest (State l [])).2) c.
Proof.
  induction rest as [|t rest IH]; intros i l c; [done|].
  cbn [Remove_range]. destruct (String.eqb t v); [done | apply IH].
Qed.

Lemma Remove_after_any_trace (p : list string) :
  ∀ (l : StringList) (c : list call),
  (Remove p (State l c)).2 = State (after (Remove p) l) c.
Proof.
  unfold after, run. induction p as [|v p IH]; intros l c; [done|].
  rewrite (Remove_cons_run v p (State l c)), (Remove_cons_run v p (State l [])).
  rewrite !Remove_single_run. cbn [self].
  pose proof (Remove_range_self v l 0 l c) as Hc.
  pose proof (Remove_range_self v l 0 l []) as Hnil.
  set (l' := self (Remove_range v 0 l (State l [])).2) in *.
  rewrite Hc, Hnil. apply IH.
Qed.

(** The inner loop on the receiver's slice does what the loop over its
    elements does. *)
Lemma Remove_slice_scan_values (v : string) (h : list string) (u : slice)
    (c : list call) (n : nat) :
  valid h u →
  ∀ i : nat, i + n = len u →
  ∃ (h' : list string) (u' : slice),
    (Remove_slice_scan v u i n (State (Memory h u) c)).2
      = State (Memory h' u') c ∧
    valid h' u' ∧ length h' = length h ∧ ptr u' = ptr u ∧ cap u' = cap u ∧
    elements h' u'
      = self (Remove_range v i (drop i (elements h u))
                (State (elements h u : StringList) [])).2 ∧
    (∀ q, within h q → apart q u → elements h' q = elements h q).
Proof.
  intros Hvalid. induction n as [|n IH]; intros i Hi.
  - exists h, u. repeat (split; [done|]). split; [|done].
    rewrite drop_ge; [done|].
    rewrite length_elements by by apply valid_within. lia.
  - cbn [Remove_slice_scan]. run_step. cbn [cells header].
    rewrite (at_index_elements h u i) by (by apply valid_within || lia).
    cbn [Remove_range]. destruct (String.eqb (at_index h u i) v).
    + run_step. destruct (cut_spec h u i Hvalid ltac:(lia)) as (Hl & He & Hf).
      exists (cut h u i), (Slice (ptr u) (len u - 1) (cap u)).
      split; [done|]. destruct Hvalid as [? ?].
      split; [unfold valid; cbn; lia|]. by repeat (split; [done|]).
    + apply IH. lia.
Qed.

Lemma Remove_single_after_cases (v : string) (l : StringList) :
  after (Remove [v]) l = l ∨
  ∃ l1 l2, l = l1 ++ v :: l2 ∧ after (Remove [v]) l = l1 ++ l2.
Proof.
  unfold after, run.
  destruct (Remove_single_cases v l [])
    as [[_ Hsame]|(l1 & l2 & Hl & _ & Hcut)].
  - left. apply (f_equal (λ r, self r.2)) in Hsame. exact Hsame.
  - right. exists l1, l2. split; [done|].
    apply (f_equal (λ r, self r.2)) in Hcut. exact Hcut.
Qed.

(** One pass of the inner loop is a [Remove] of one value. *)
Lemma Remove_slice_scan_single (v : string) (h : list string) (u : slice)
    (c : list call) :
  valid h u →
  ∃ (h' : list string) (u' : slice),
    (Remove_slice_scan v u 0 (len u) (State (Memory h u) c)).2
      = State (Memory h' u') c ∧
    valid h' u' ∧ length h' = length h ∧ ptr u' = ptr u ∧ cap u' = cap u ∧
    elements h' u' = after (Remove [v]) (elements h u) ∧
    (∀ q, within h q → apart q u → elements h' q = elements h q).
Proof.
  intros Hvalid.
  destruct (Remove_slice_scan_values v h u c (len u) Hvalid 0 eq_refl)
    as (h1 & u1 & Hrun & Hv1 & Hl1 & Hptr & Hcap & He & Hf).
  exists h1, u1. repeat (split; [done|]). split; [|done].
  etrans; [exact He|]. unfold after, run.
  rewrite (Remove_single_run v (State (elements h u : StringList) [])).
  cbn [self]. by rewrite drop_0.
Qed.

(** Whatever the argument slice shares with the receiver, [Remove] only
    deletes elements, at most one per value read. *)
Lemma Remove_slice_range_deletes (p : slice) (n : nat) :
  ∀ (j : nat) (h : list string) (u : slice) (c : list call),
  valid h u →
  ∃ (h' : list string) (u' : slice),
    (Remove_slice_range p j n (State (Memory h u) c)).2
      = State (Memory h' u') c ∧
    valid h' u' ∧
    sublist (elements h' u') (elements h u) ∧
    length (elements h u) ≤ length (elements h' u') + n.
Proof.
  induction n as [|n IH]; intros j h u c Hvalid.
  - exists h, u. split; [done|]. split; [done|]. split; [done|lia].
  - cbn [Remove_slice_range]. run_step. cbn [cells header].
    set (v := at_index h p j).
    destruct (Remove_slice_scan_single v h u c Hvalid)
      as (h1 & u1 & Hrun & Hv1 & _ & _ & _ & He & _).
    rewrite Hrun. cbn [snd].
    destruct (IH (S j) h1 u1 c Hv1) as (h' & u' & Hrun' & Hv' & Hsub & Hlen).
    exists h', u'. split; [done|]. split; [done|].
    destruct (Remove_single_after_cases v (elements h u))
      as [Hsame|(l1 & l2 & Hl & Hcut)].
    + rewrite Hsame in He. rewrite He in *. split; [done|lia].
    + rewrite Hcut in He. rewrite He in *. rewrite Hl. split.
      * etrans; [exact Hsub|]. apply sublist_app; [done|]. by apply sublist_cons.
      * rewrite !length_app in *. cbn. lia.
Qed.

(** When the argument slice shares no cell with the receiver's array, the
    loop reads the values the slice had at the call. *)
Lemma Remove_slice_range_values (p : slice) (n : nat) :
  ∀ (j : nat) (h : list string) (u : slice) (c : list call),
  valid h u → within h p → apart p u → j + n = len p →
  ∃ (h' : list string) (u' : slice),
    (Remove_slice_range p j n (State (Memory h u) c)).2
      = State (Memory h' u') c ∧
    valid h' u' ∧
    elements h' u' = after (Remove (drop j (elements h p))) (elements h u) ∧
    (∀ q, within h q → apart q u →
          within h' q ∧ apart q u' ∧ elements h' q = elements h q).
Proof.
  induction n as [|n IH]; intros j h u c Hvalid Hp Hapart Hj.
  - exists h, u. split; [done|]. split; [done|]. split; [|done].
    rewrite drop_ge; [done|]. rewrite length_elements by done. lia.
  - cbn [Remove_slice_range]. run_step. cbn [cells header].
    rewrite (at_index_elements h p j) by (done || lia).
    set (v := at_index h p j).
    destruct (Remove_slice_scan_single v h u c Hvalid)
      as (h1 & u1 & Hrun & Hv1 & Hl1 & Hptr & Hcap & He & Hf).
    rewrite Hrun. cbn [snd].
    assert (Hframe : ∀ q, within h q → apart q u →
                     within h1 q ∧ apart q u1 ∧ elements h1 q = elements h q).
    { intros q Hq Hqa. unfold within, apart in *. rewrite Hl1, Hptr, Hcap.
      split; [done|]. split; [done|]. by apply Hf. }
    destruct (Hframe p Hp Hapart) as (Hp1 & Hapart1 & Hpe).
    destruct (IH (S j) h1 u1 c Hv1 Hp1 Hapart1 ltac:(lia))
      as (h' & u' & Hrun' & Hv' & Hres & Hfr).
    exists h', u'. split; [done|]. split; [done|]. split.
    + rewrite Hres, Hpe, He. unfold after, run.
      rewrite (Remove_cons_run v (drop (S j) (elements h p))
                 (State (elements h u : StringList) [])).
      by rewrite (Remove_after_any_trace [v] (elements h u : StringList) []).
    + intros q Hq Hqa. destruct (Hframe q Hq Hqa) as (Hq1 & Hqa1 & Hqe1).
      destruct (Hfr q Hq1 Hqa1) as (? & ? & Hqe2).
      split; [done|]. split; [done|]. by rewrite Hqe2.
Qed.


(** *** The two views of a call *)

Lemma after_Add_app (p q : list string) (l : StringList) :
  after (Add (p ++ q)) l = after (Add q) (after (Add p) l).
Proof.
  unfold after at 1. unfold run. rewrite Add_app_run.
  rewrite (Add_after_any_trace p l []). by rewrite Add_after_any_trace.
Qed.

Lemma after_Remove_app (p q : list string) (l : StringList) :
  after (Remove (p ++ q)) l = after (Remove q) (after (Remove p) l).
Proof.
  unfold after at 1. unfold run. rewrite Remove_app_run.
  rewrite (Remove_after_any_trace p l []). by rewrite Remove_after_any_trace.
Qed.

Lemma after_Add_single (v : string) (l : StringList) :
  after (Add [v]) l =
  if negb (contains_range v l) && negb (String.eqb v "") then l ++ [v] else l.
Proof. unfold after, run. by rewrite Add_single_run. Qed.

(** The values a call of [Add] appends, in order: [remove_dups] keeps the
    last occurrence of each value, so between two reversals the first. *)
Lemma after_Add_first_occurrences (p : list string) (l : StringList) :
  after (Add p) l =
  l ++ reverse (remove_dups (reverse (filter (λ x, x ≠ "" ∧ x ∉ l) p))).
Proof.
  induction p as [|v p IH] using rev_ind.
  - by rewrite app_nil_r.
  - rewrite after_Add_app, IH, after_Add_single, filter_app.
    set (fp := filter (λ x, x ≠ "" ∧ x ∉ l) p).
    assert (Hin : ∀ x, x ∈ reverse (remove_dups (reverse fp)) ↔ x ∈ fp).
    { intros x. by rewrite elem_of_reverse, elem_of_remove_dups, elem_of_reverse. }
    destruct (decide (v ≠ "" ∧ v ∉ l)) as [[Hv Hl]|Hskip].
    + rewrite filter_cons_True, filter_nil by done.
      rewrite reverse_snoc. cbn [remove_dups].
      destruct (String.eqb_spec v "") as [|_]; [done|]. cbn [negb].
      rewrite andb_true_r. case_decide as Hdup.
      * rewrite elem_of_reverse in Hdup.
        assert (contains_range v (l ++ reverse (remove_dups (reverse fp))) = true)
          as ->; [|done].
        apply contains_range_true, elem_of_app. right. by apply Hin.
      * rewrite elem_of_reverse in Hdup.
        assert (contains_range v (l ++ reverse (remove_dups (reverse fp))) = false)
          as ->.
        { apply contains_range_false. intros [?|?%Hin]%elem_of_app; done. }
        cbn [negb]. by rewrite reverse_cons, app_assoc.
    + rewrite filter_cons_False, filter_nil, app_nil_r by done.
      assert (negb (contains_range v (l ++ reverse (remove_dups (reverse fp))))
              && negb (String.eqb v "") = false) as ->; [|done].
      destruct (String.eqb_spec v "") as [|Hv]; [apply andb_false_r|].
      rewrite andb_true_r. apply negb_false_iff, contains_range_true, elem_of_app.
      left. destruct (decide (v ∈ l)); [done|]. by destruct Hskip.
Qed.

(** A call with one value reads it before it writes anything: whatever the
    argument shares with the receiver, it is the call on the value. *)
Lemma Add_slice_single (h : list string) (u p : slice) :
  valid h u → len p = 1 →
  elems (after (Add_slice spare p) (Memory h u))
  = after (Add [at_index h p 0]) (elements h u).
Proof.
  intros Hvalid Hp. unfold after at 1. unfold run, Add_slice. rewrite Hp.
  rewrite Add_slice_range_S. cbn [Add_slice_range cells header].
  rewrite after_Add_single. unfold elems at 2. run_step. cbn [cells header].
  destruct (negb _ && negb _); [|done].
  by destruct (append_one_spec h u (at_index h p 0) Hvalid) as [-> _].
Qed.

Lemma Remove_slice_single (h : list string) (u p : slice) :
  valid h u → len p = 1 →
  elems (after (Remove_slice p) (Memory h u))
  = after (Remove [at_index h p 0]) (elements h u).
Proof.
  intros Hvalid Hp. unfold after at 1. unfold run, Remove_slice. rewrite Hp.
  cbn [Remove_slice_range]. run_step. cbn [cells header].
  destruct (Remove_slice_scan_single (at_index h p 0) h u [] Hvalid)
    as (h1 & u1 & Hrun & _ & _ & _ & _ & He & _).
  rewrite Hrun. by cbn.
Qed.

(** A call with a slice that shares no cell with the receiver's array is
    the call on the values of the slice. *)
Lemma Add_slice_values (h : list string) (u p : slice) (c : list call) :
  valid h u → within h p → apart p u →
  ∃ (h' : list string) (u' : slice),
    (Add_slice spare p (State (Memory h u) c)).2 = State (Memory h' u') c ∧
    valid h' u' ∧
    elements h' u' = after (Add (elements h p)) (elements h u) ∧
    (∀ q, within h q → apart q u →
          within h' q ∧ apart q u' ∧ elements h' q = elements h q).
Proof.
  intros Hvalid Hp Hapart.
  destruct (Add_slice_range_values p (len p) 0 h u c Hvalid Hp Hapart eq_refl)
    as (h' & u' & Hrun & Hv' & He & Hf).
  exists h', u'. by rewrite drop_0 in He.
Qed.

Lemma Remove_slice_values (h : list string) (u p : slice) (c : list call) :
  valid h u → within h p → apart p u →
  ∃ (h' : list string) (u' : slice),
    (Remove_slice p (State (Memory h u) c)).2 = State (Memory h' u') c ∧
    valid h' u' ∧
    elements h' u' = after (Remove (elements h p)) (elements h u) ∧
    (∀ q, within h q → apart q u →
          within h' q ∧ apart q u' ∧ elements h' q = elements h q).
Proof.
  intros Hvalid Hp Hapart.
  destruct (Remove_slice_range_values p (len p) 0 h u c Hvalid Hp Hapart eq_refl)
    as (h' & u' & Hrun & Hv' & He & Hf).
  exists h', u'. by rewrite drop_0 in He.
Qed.


(** C8 (as amended).  A second call of [Add(v)] changes nothing; after the
    two calls the list holds [v] exactly once when [v] is non-empty and the
    list held it at most once before; [Add("")] never changes the list; and
    a call with a one-element slice is the call with its value, whatever
    cells the slice shares with the receiver.  Every call of [Add], on any
    slice, keeps the elements in place and appends after them only values
    that are non-empty and were not present, each once.  When the argument
    shares no cell with the receiver's array, as with an explicit argument
    list, the values appended are exactly the non-empty values of the
    argument that were not present, each once, in the order of their first
    occurrence in the argument.  [Add] returns no value, so no error. *)
Theorem Add_idempotent_appends_in_order (l : StringList) :
  (∀ v, after (Add [v];; Add [v]) l = after (Add [v]) l) ∧
  (∀ v, v ≠ "" → count_occ String.string_dec l v ≤ 1 →
        count_occ String.string_dec (after (Add [v];; Add [v]) l) v = 1) ∧
  after (Add [""]) l = l ∧
  (∀ h u p, valid h u → elements h u = l → len p = 1 →
     elems (after (Add_slice spare p) (Memory h u))
     = after (Add [at_index h p 0]) l) ∧
  (∀ h u p, valid h u → elements h u = l →
     ∃ ext, elems (after (Add_slice spare p) (Memory h u)) = l ++ ext ∧
            NoDup ext ∧ (∀ x, x ∈ ext → x ≠ "" ∧ x ∉ l)) ∧
  (∀ h u p, valid h u → elements h u = l → within h p → apart p u →
     elems (after (Add_slice spare p) (Memory h u)) =
     l ++ reverse (remove_dups (reverse
            (filter (λ x, x ≠ "" ∧ x ∉ l) (elements h p))))).
Proof.
  destruct (Add_twice l) as (Honce & Hcount & Hempty).
  split; [done|]. split; [done|]. split; [done|]. split; [|split].
  - intros h u p Hvalid <- Hp. by apply Add_slice_single.
  - intros h u p Hvalid <-. unfold after, run, Add_slice.
    destruct (Add_slice_range_appends p (len p) 0 (Memory h u) [] Hvalid)
      as (m' & ext & -> & _ & Hext & Hnd & Hnew).
    exists ext. by split.
  - intros h u p Hvalid <- Hp Hapart. unfold after, run.
    destruct (Add_slice_values h u p [] Hvalid Hp Hapart)
      as (h' & u' & -> & _ & He & _).
    cbn [snd self]. unfold elems. cbn [cells header].
    by rewrite He, after_Add_first_occurrences.
Qed.

(** X3.  After [Add] on any slice the list still contains what it
    contained; and when the argument shares no cell with the receiver's
    array, the list contains [w] afterwards exactly when it contained it
    before or [w] is a non-empty value of the argument. *)
Theorem contains_after_Add_slice (h : list string) (u p : slice) (w : string) :
  valid h u →
  (w ∈ elements h u →
     result (Add_slice spare p;; contains_slice w) (Memory h u) = true) ∧
  (within h p → apart p u →
     (result (Add_slice spare p;; contains_slice w) (Memory h u) = true ↔
      w ∈ elements h u ∨ (w ∈ elements h p ∧ w ≠ ""))).
Proof.
  intros Hvalid. unfold result, run. rewrite bind_run.
  unfold contains_slice. run_step. split.
  - intros Hw. unfold Add_slice.
    destruct (Add_slice_range_appends p (len p) 0 (Memory h u) [] Hvalid)
      as (m' & ext & -> & _ & Hext & _).
    cbn [self]. fold (elems m'). rewrite Hext.
    apply contains_range_true, elem_of_app. by left.
  - intros Hp Hapart.
    destruct (Add_slice_values h u p [] Hvalid Hp Hapart)
      as (h' & u' & -> & _ & He & _).
    cbn [self cells header]. rewrite He.
    pose proof (contains_after_Add_values (elements h p) w (elements h u)) as Hval.
    unfold result, run in Hval. rewrite bind_run, contains_run in Hval.
    cbn [fst] in Hval. exact Hval.
Qed.

(** X4.  On a list without duplicates, and with an argument that shares no
    cell with the receiver's array, [Remove] leaves exactly the elements
    that are not among the argument's values, in their order; none of those
    values is contained afterwards. *)
Theorem Remove_slice_unique_filter (h : list string) (u p : slice) :
  valid h u → within h p → apart p u → NoDup (elements h u) →
  elems (after (Remove_slice p) (Memory h u))
    = filter (λ x, x ∉ elements h p) (elements h u) ∧
  (∀ v, v ∈ elements h p →
        result (Remove_slice p;; contains_slice v) (Memory h u) = false).
Proof.
  intros Hvalid Hp Hapart Hnd.
  destruct (Remove_slice_values h u p [] Hvalid Hp Hapart)
    as (h' & u' & Hrun & _ & He & _).
  destruct (Remove_values_unique_filter (elements h p) (elements h u) Hnd) as [Hfil _].
  split.
  - unfold after, run. rewrite Hrun. cbn [snd self]. unfold elems.
    cbn [cells header]. by rewrite He.
  - intros v Hv. unfold result, run. rewrite bind_run, Hrun.
    unfold contains_slice. run_step. cbn [cells header]. rewrite He, Hfil.
    apply contains_range_false. by intros [? _]%list_elem_of_filter.
Qed.

(** X5.  On any list and with any argument slice, [Remove] only deletes:
    what is left is a subsequence of the old elements, at most one shorter
    per element of the argument.  When the argument shares no cell with the
    receiver's array, every element that is not among its values is still
    there, as often as before and in the same order. *)
Theorem Remove_slice_only_deletes (h : list string) (u p : slice) :
  valid h u →
  sublist (elems (after (Remove_slice p) (Memory h u))) (elements h u) ∧
  length (elements h u)
    ≤ length (elems (after (Remove_slice p) (Memory h u))) + len p ∧
  (within h p → apart p u →
     filter (λ x, x ∉ elements h p) (elems (after (Remove_slice p) (Memory h u)))
     = filter (λ x, x ∉ elements h p) (elements h u)).
Proof.
  intros Hvalid. unfold after, run, Remove_slice.
  destruct (Remove_slice_range_deletes p (len p) 0 h u [] Hvalid)
    as (h1 & u1 & Hrun & _ & Hsub & Hlen).
  rewrite Hrun. cbn [snd self]. unfold elems. cbn [cells header].
  split; [done|]. split; [done|]. intros Hp Hapart.
  destruct (Remove_slice_values h u p [] Hvalid Hp Hapart)
    as (h' & u' & Hrun' & _ & He & _).
  unfold Remove_slice in Hrun'. rewrite Hrun in Hrun'. injection Hrun' as -> ->.
  rewrite He.
  destruct (Remove_values_only_deletes (elements h p) (elements h u)) as (_ & _ & Hkept).
  exact Hkept.
Qed.

(** X2.  With arguments that share no cell with the receiver's array, one
    call of [Add] with the values of [p] followed by those of [q] leaves
    the elements that a call with [p] and then a call with [q] leave. *)
Theorem Add_slice_app (h : list string) (u p q pq : slice) :
  valid h u →
  within h p → apart p u → within h q → apart q u →
  within h pq → apart pq u →
  elements h pq = elements h p ++ elements h q →
  elems (after (Add_slice spare pq) (Memory h u))
  = elems (after (Add_slice spare p;; Add_slice spare q) (Memory h u)).
Proof.
  intros Hvalid Hp Hpa Hq Hqa Hpq Hpqa Hcat. unfold after, run.
  rewrite bind_run.
  destruct (Add_slice_values h u pq [] Hvalid Hpq Hpqa)
    as (h0 & u0 & -> & _ & He0 & _).
  destruct (Add_slice_values h u p [] Hvalid Hp Hpa)
    as (h1 & u1 & -> & Hv1 & He1 & Hf1).
  destruct (Hf1 q Hq Hqa) as (Hq1 & Hqa1 & Hqe).
  destruct (Add_slice_values h1 u1 q [] Hv1 Hq1 Hqa1)
    as (h2 & u2 & -> & _ & He2 & _).
  cbn [snd self]. unfold elems. cbn [cells header].
  by rewrite He0, He2, He1, Hqe, Hcat, after_Add_app.
Qed.

(** X7.  With arguments that share no cell with the receiver's array, one
    call of [Remove] with the values of [p] followed by those of [q] leaves
    the elements that a call with [p] and then a call with [q] leave. *)
Theorem Remove_slice_app (h : list string) (u p q pq : slice) :
  valid h u →
  within h p → apart p u → within h q → apart q u →
  within h pq → apart pq u →
  elements h pq = elements h p ++ elements h q →
  elems (after (Remove_slice pq) (Memory h u))
  = elems (after (Remove_slice p;; Remove_slice q) (Memory h u)).
Proof.
  intros Hvalid Hp Hpa Hq Hqa Hpq Hpqa Hcat. unfold after, run.
  rewrite bind_run.
  destruct (Remove_slice_values h u pq [] Hvalid Hpq Hpqa)
    as (h0 & u0 & -> & _ & He0 & _).
  destruct (Remove_slice_values h u p [] Hvalid Hp Hpa)
    as (h1 & u1 & -> & Hv1 & He1 & Hf1).
  destruct (Hf1 q Hq Hqa) as (Hq1 & Hqa1 & Hqe).
  destruct (Remove_slice_values h1 u1 q [] Hv1 Hq1 Hqa1)
    as (h2 & u2 & -> & _ & He2 & _).
  cbn [snd self]. unfold elems. cbn [cells header].
  by rewrite He0, He2, He1, Hqe, Hcat, after_Remove_app.
Qed.

End StringListInMemory.

(** ** The properties on explicit inputs *)

(** C7 as first stated fails on a list that holds the value twice:
    [Remove("a")] on [["a"; "a"]] leaves [["a"]], which still contains
    ["a"]. *)
Lemma Remove_duplicate_still_contained :
  "a" ∈ (["a"; "a"] : StringList) ∧
  after (Remove ["a"]) ["a"; "a"] = ["a"] ∧
  result (Remove ["a"];; contains "a") ["a"; "a"] = true.
Proof. split; [by left|]. by split. Qed.

Lemma Remove_cuts_first_occurrence_witness :
  result (Remove ["b"];; contains "b") ["a"; "b"; "c"] = false ∧
  after (Remove ["z"]) ["a"; "b"; "c"] = ["a"; "b"; "c"].
Proof.
  split.
  - apply (Remove_cuts_first_occurrence ["a"; "b"; "c"] "b").
    + right. left.
    + apply (bool_decide_unpack _). vm_compute. exact I.
  - apply (Remove_cuts_first_occurrence ["a"; "b"; "c"] "z").
    apply (bool_decide_unpack _). vm_compute. exact I.
Defined.

(** C8 as first stated fails for the empty string, which is never added,
    and on a list that already holds the value twice. *)
Lemma Add_twice_not_one_occurrence :
  count_occ String.string_dec (after (Add [""];; Add [""]) []) "" = 0 ∧
  count_occ String.string_dec (after (Add ["a"];; Add ["a"]) ["a"; "a"]) "a" = 2.
Proof. split; reflexivity. Qed.

Lemma Add_idempotent_appends_in_order_witness :
  count_occ String.string_dec (after (Add ["b"];; Add ["b"]) ["a"]) "b" = 1 ∧
  elems (after (Add_slice (λ _ _, 0) (Slice 1 4 4))
               (Memory ["a"; "b"; "a"; "c"; "b"] (Slice 0 1 1)))
  = ["a"; "b"; "c"].
Proof.
  destruct (Add_idempotent_appends_in_order (λ _ _, 0) ["a"])
    as (_ & Hcount & _ & _ & _ & Horder).
  split.
  - apply Hcount; [discriminate | cbn; lia].
  - rewrite (Horder ["a"; "b"; "a"; "c"; "b"] (Slice 0 1 1) (Slice 1 4 4)).
    + vm_compute. reflexivity.
    + unfold valid. cbn. lia.
    + reflexivity.
    + unfold within. cbn. lia.
    + unfold apart. cbn. lia.
Defined.

Lemma Import_Valid_only_type_witness :
  result (Import_Valid sample_Quote) (mkImport "stream" "no such account") = None.
Proof.
  destruct (Import_Valid_only_type sample_Quote
              (mkImport "stream" "no such account")) as [[_ Hnil] _].
  apply Hnil. left. reflexivity.
Defined.

Lemma Export_Valid_type_then_subject_witness :
  result (Export_Valid sample_Quote) {| Export_Type := "bogus"; Export_Subject := "" |}
  = Some (fmt_Errorf ("export type " +:+ sample_Quote "bogus" +:+ " is invalid")).
Proof.
  destruct (Export_Valid_type_then_subject sample_Quote
              {| Export_Type := "bogus"; Export_Subject := "" |})
    as (_ & Htype & _).
  apply Htype; discriminate.
Defined.

Lemma Activation_Valid_first_failure_witness :
  result (Activation_Valid sample_Quote) sample_Activation =
  Some (fmt_Errorf ("error validating activation (index 1):export type "
                    +:+ dquote +:+ "bogus" +:+ dquote +:+ " is invalid")).
Proof.
  destruct (Activation_Valid_first_failure sample_Quote sample_Activation)
    as [Hfail _].
  apply (Hfail [ {| Export_Type := "service"; Export_Subject := "foo" |} ]
               {| Export_Type := "bogus"; Export_Subject := "bar" |}
               []
               (fmt_Errorf ("export type " +:+ sample_Quote "bogus"
                            +:+ " is invalid"))).
  - reflexivity.
  - intros t' ->%list_elem_of_singleton. reflexivity.
  - reflexivity.
Defined.

Lemma Account_Valid_first_decode_failure_witness :
  result (Account_Valid sample_Quote sample_DecodeActivationClaims
            sample_IsValidPublicAccountKey) sample_Account_undecoded
  = Some (fmt_Errorf "error decoding activation [1]: invalid token") ∧
  trace (Account_Valid sample_Quote sample_DecodeActivationClaims
           sample_IsValidPublicAccountKey) sample_Account_undecoded
  = [CallDecodeActivationClaims "tokenX"; CallDecodeActivationClaims "garbage"].
Proof.
  destruct (Account_Valid_first_decode_failure sample_Quote
              sample_DecodeActivationClaims sample_IsValidPublicAccountKey
              sample_Account_undecoded ["tokenX"] "garbage" ["tokenX"]
              (errors_New "invalid token")) as (Hres & _ & Htrace).
  - reflexivity.
  - intros s' ->%list_elem_of_singleton. eexists. reflexivity.
  - reflexivity.
  - split; [exact Hres | exact Htrace].
Defined.

Lemma Account_Valid_resolves_imports_witness :
  result (Account_Valid sample_Quote sample_DecodeActivationClaims
            sample_IsValidPublicAccountKey) sample_Account = None ∧
  result (Account_Valid sample_Quote sample_DecodeActivationClaims
            sample_IsValidPublicAccountKey) sample_Account_unresolved
  = Some (fmt_Errorf
      ("import references account " +:+ sample_Quote "Y" +:+
       " - but it is not an account pk nor an activation token name")) ∧
  trace (Account_Valid sample_Quote sample_DecodeActivationClaims
           sample_IsValidPublicAccountKey) sample_Account_unresolved
  = [CallDecodeActivationClaims "tokenX";
     CallIsValidPublicAccountKey "X"; CallIsValidPublicAccountKey "Y"].
Proof.
  assert (Hdec : ∀ s, s ∈ ["tokenX"] →
                  ∃ ac, sample_DecodeActivationClaims s = inl ac).
  { intros s ->%list_elem_of_singleton. eexists. reflexivity. }
  assert (HX : ∀ t, t ∈ [mkImport "stream" "X"] →
            sample_IsValidPublicAccountKey (Import_Account t) = true ∨
            ∃ s ac, s ∈ ["tokenX"] ∧ sample_DecodeActivationClaims s = inl ac ∧
                    ActivationClaims_Name ac = Import_Account t).
  { intros t ->%list_elem_of_singleton. right. exists "tokenX". eexists.
    split; [by left|]. split; reflexivity. }
  split.
  - destruct (Account_Valid_resolves_imports sample_Quote
                sample_DecodeActivationClaims sample_IsValidPublicAccountKey
                sample_Account Hdec) as [Hnil _].
    apply Hnil, HX.
  - destruct (Account_Valid_resolves_imports sample_Quote
                sample_DecodeActivationClaims sample_IsValidPublicAccountKey
                sample_Account_unresolved Hdec) as [_ Hfail].
    apply (Hfail [mkImport "stream" "X"] (mkImport "stream" "Y")
                 [mkImport "service" "X"]); [reflexivity | exact HX |].
    intros [Hkey|(s & ac & ->%list_elem_of_singleton & Hac & Hname)];
      [discriminate|].
    vm_compute in Hac. injection Hac as <-. discriminate.
Defined.

Lemma Account_Valid_never_validates_activations_witness :
  result (Activation_Valid sample_Quote)
    {| Activation_Exports := [ {| Export_Type := "bogus"; Export_Subject := "bar" |} ];
       Activation_Limits := zero_Limits;
       Activation_OperatorLimits := zero_OperatorLimits |} ≠ None ∧
  result (Account_Valid sample_Quote sample_DecodeActivationClaims
            sample_IsValidPublicAccountKey) sample_Account = None.
Proof.
  split; [discriminate|].
  apply (Account_Valid_never_validates_activations sample_Quote
           sample_DecodeActivationClaims sample_IsValidPublicAccountKey
           sample_Account).
  - intros s ->%list_elem_of_singleton. eexists. reflexivity.
  - intros t ->%list_elem_of_singleton. right. exists "tokenX". eexists.
    split; [by left|]. split; reflexivity.
  - exists "tokenX". eexists. split; [by left|]. split; [reflexivity|].
    discriminate.
Defined.

Lemma Revocation_Valid_order_witness :
  result (Revocation_Valid sample_DecodeGeneric) (mkRevocation "xyz" "jwtabc")
  = Some (fmt_Errorf "error validating revocation token, id in the child JWT doesn't match revoked id") ∧
  result (Revocation_Valid sample_DecodeGeneric) (mkRevocation "abc" "jwtabc")
  = None ∧
  trace (Revocation_Valid sample_DecodeGeneric) (mkRevocation "abc" "") = [] ∧
  trace (Revocation_Valid sample_DecodeGeneric) (mkRevocation "" "jwtabc") = [].
Proof.
  split; [|split; [|split]].
  - destruct (Revocation_Valid_order sample_DecodeGeneric
                (mkRevocation "xyz" "jwtabc")) as (_ & _ & H).
    destruct H as [_ [H _]]; [discriminate | discriminate |].
    apply H. discriminate.
  - destruct (Revocation_Valid_order sample_DecodeGeneric
                (mkRevocation "abc" "jwtabc")) as (_ & _ & H).
    destruct H as [_ [_ H]]; [discriminate | discriminate |].
    apply H. reflexivity.
  - destruct (Revocation_Valid_order sample_DecodeGeneric
                (mkRevocation "abc" "")) as (H & _ & _).
    apply H. reflexivity.
  - destruct (Revocation_Valid_order sample_DecodeGeneric
                (mkRevocation "" "jwtabc")) as (_ & H & _).
    apply H; [discriminate | reflexivity].
Defined.

(** ** The further properties on explicit inputs *)

Lemma Add_keeps_unique_nonempty_witness :
  NoDup (after (Add ["b"; "a"; ""; "b"]) ["a"]) ∧
  "" ∉ after (Add ["b"; "a"; ""; "b"]) ["a"].
Proof.
  destruct (Add_keeps_unique_nonempty ["b"; "a"; ""; "b"] ["a"]) as [Hnd Hne].
  split; [apply Hnd | apply Hne]; apply (bool_decide_unpack _); vm_compute;
    exact I.
Defined.

Lemma Add_then_Remove_witness :
  after (Add ["b"];; Remove ["b"]) ["a"] = ["a"].
Proof.
  apply (Add_then_Remove "b" ["a"]).
  apply (bool_decide_unpack _). vm_compute. exact I.
Defined.

Lemma Activations_decodes_in_order_witness :
  trace (Activations sample_DecodeActivationClaims) sample_Account
  = [CallDecodeActivationClaims "tokenX"].
Proof.
  destruct (Activations_decodes_in_order sample_DecodeActivationClaims
              sample_Account
              [ {| ActivationClaims_Name := "X";
                   ActivationClaims_Activation :=
                     {| Activation_Exports :=
                          [ {| Export_Type := "bogus"; Export_Subject := "bar" |} ];
                        Activation_Limits := zero_Limits;
                        Activation_OperatorLimits := zero_OperatorLimits |} |} ])
    as [_ Htrace].
  apply Htrace. reflexivity.
Defined.

Lemma Account_Valid_only_import_accounts_witness :
  result (Account_Valid sample_Quote sample_DecodeActivationClaims
            sample_IsValidPublicAccountKey)
    {| Account_Imports := [mkImport "bogus" "X"]; Account_Act := ["tokenX"] |}
  = result (Account_Valid sample_Quote sample_DecodeActivationClaims
              sample_IsValidPublicAccountKey) sample_Account.
Proof.
  apply (Account_Valid_only_import_accounts sample_Quote
           sample_DecodeActivationClaims sample_IsValidPublicAccountKey
           sample_Account
           {| Account_Imports := [mkImport "bogus" "X"];
              Account_Act := ["tokenX"] |}); reflexivity.
Defined.

Lemma AppendActivation_then_Valid_witness :
  result (AppendActivation "tokenX";;
          Account_Valid sample_Quote sample_DecodeActivationClaims
            sample_IsValidPublicAccountKey) sample_Account = None ∧
  result (AppendActivation "garbage";;
          Account_Valid sample_Quote sample_DecodeActivationClaims
            sample_IsValidPublicAccountKey) sample_Account
  = Some (fmt_Errorf "error decoding activation [1]: invalid token").
Proof.
  split.
  - destruct (AppendActivation_then_Valid sample_Quote
                sample_DecodeActivationClaims sample_IsValidPublicAccountKey
                sample_Account "tokenX") as (_ & _ & Hkeep & _).
    eapply Hkeep; reflexivity.
  - destruct (AppendActivation_then_Valid sample_Quote
                sample_DecodeActivationClaims sample_IsValidPublicAccountKey
                sample_Account "garbage") as (_ & _ & _ & Hfail).
    apply (Hfail (errors_New "invalid token")); [|reflexivity].
    intros s ->%list_elem_of_singleton. eexists. reflexivity.
Defined.

Lemma Activation_Valid_only_exports_witness :
  result (Activation_Valid sample_Quote) sample_Activation = None ↔
  result (Activation_Valid sample_Quote)
    {| Activation_Exports :=
         [ {| Export_Type := "service"; Export_Subject := "foo" |} ];
       Activation_Limits := zero_Limits;
       Activation_OperatorLimits := zero_OperatorLimits |} = None ∧
  result (Activation_Valid sample_Quote)
    {| Activation_Exports :=
         [ {| Export_Type := "bogus"; Export_Subject := "bar" |} ];
       Activation_Limits := zero_Limits;
       Activation_OperatorLimits := zero_OperatorLimits |} = None.
Proof.
  destruct (Activation_Valid_only_exports sample_Quote sample_Activation)
    as (_ & _ & Hsplit).
  apply (Hsplit [ {| Export_Type := "service"; Export_Subject := "foo" |} ]
                [ {| Export_Type := "bogus"; Export_Subject := "bar" |} ]).
  reflexivity.
Defined.

(** The receiver's own slice as the argument: [l.Remove(l...)] on
    [a b c] removes [a], then reads [c] where [b] was and removes it, and
    leaves [b]. *)
Lemma Remove_slice_shared_array :
  elems (after (Remove_slice (Slice 0 3 3)) (Memory ["a"; "b"; "c"] (Slice 0 3 3)))
  = ["b"].
Proof. reflexivity. Qed.

(** An empty receiver inside the argument's array: with [s] holding
    [a b c] and [l = s[1:1]], [l.Add(s...)] writes [a] over [b] before
    [b] is read, and leaves [a c]. *)
Lemma Add_slice_shared_array (spare : nat → nat → nat) :
  elems (after (Add_slice spare (Slice 0 3 3)) (Memory ["a"; "b"; "c"] (Slice 1 0 2)))
  = ["a"; "c"].
Proof. reflexivity. Qed.

Lemma Add_slice_app_witness :
  elems (after (Add_slice (λ _ _, 0) (Slice 1 3 3))
               (Memory ["a"; "b"; "a"; "c"] (Slice 0 1 1)))
  = elems (after (Add_slice (λ _ _, 0) (Slice 1 1 1);;
                  Add_slice (λ _ _, 0) (Slice 2 2 2))
                 (Memory ["a"; "b"; "a"; "c"] (Slice 0 1 1))).
Proof.
  apply (Add_slice_app (λ _ _, 0) ["a"; "b"; "a"; "c"] (Slice 0 1 1)
           (Slice 1 1 1) (Slice 2 2 2) (Slice 1 3 3));
    try reflexivity; unfold valid, within, apart; cbn; lia.
Defined.

Lemma contains_after_Add_slice_witness :
  result (Add_slice (λ _ _, 0) (Slice 1 2 2);; contains_slice "c")
         (Memory ["a"; "b"; "c"] (Slice 0 1 1)) = true.
Proof.
  destruct (contains_after_Add_slice (λ _ _, 0) ["a"; "b"; "c"] (Slice 0 1 1)
              (Slice 1 2 2) "c") as [_ Hiff].
  - unfold valid. cbn. lia.
  - apply Hiff.
    + unfold within. cbn. lia.
    + unfold apart. cbn. lia.
    + right. split; [|discriminate]. apply (bool_decide_unpack _).
      vm_compute. exact I.
Defined.

Lemma Remove_slice_unique_filter_witness :
  elems (after (Remove_slice (Slice 3 3 3))
               (Memory ["a"; "b"; "c"; "b"; "z"; "b"] (Slice 0 3 3)))
  = ["a"; "c"].
Proof.
  destruct (Remove_slice_unique_filter ["a"; "b"; "c"; "b"; "z"; "b"]
              (Slice 0 3 3) (Slice 3 3 3)) as [Hcut _].
  - unfold valid. cbn. lia.
  - unfold within. cbn. lia.
  - unfold apart. cbn. lia.
  - apply (bool_decide_unpack _). vm_compute. exact I.
  - rewrite Hcut. vm_compute. reflexivity.
Defined.

Lemma Remove_slice_only_deletes_witness :
  filter (λ x, x ∉ elements ["a"; "b"; "a"; "c"] (Slice 3 1 1))
    (elems (after (Remove_slice (Slice 3 1 1))
                  (Memory ["a"; "b"; "a"; "c"] (Slice 0 3 3))))
  = ["a"; "b"; "a"].
Proof.
  destruct (Remove_slice_only_deletes ["a"; "b"; "a"; "c"] (Slice 0 3 3)
              (Slice 3 1 1)) as (_ & _ & Hkept).
  - unfold valid. cbn. lia.
  - rewrite Hkept.
    + vm_compute. reflexivity.
    + unfold within. cbn. lia.
    + unfold apart. cbn. lia.
Defined.

Lemma Remove_slice_app_witness :
  elems (after (Remove_slice (Slice 3 2 2))
               (Memory ["a"; "b"; "c"; "a"; "c"] (Slice 0 3 3)))
  = elems (after (Remove_slice (Slice 3 1 1);; Remove_slice (Slice 4 1 1))
                 (Memory ["a"; "b"; "c"; "a"; "c"] (Slice 0 3 3))).
Proof.
  apply (Remove_slice_app ["a"; "b"; "c"; "a"; "c"] (Slice 0 3 3)
           (Slice 3 1 1) (Slice 4 1 1) (Slice 3 2 2));
    try reflexivity; unfold valid, within, apart; cbn; lia.
Defined.
